(** * fix_all_content.py: a shallow embedding and its properties

    The script walks a directory tree, rewrites every eligible [*.html]
    file with a fixed, ordered list of literal and regular-expression
    substitutions, and writes a file back only when its text changed.

    Python [str] values are sequences of Unicode code points, so a text is
    a list of code points; bytes on disk are a separate type and the UTF-8
    codec sits between the two. *)

From Stdlib Require Import List NArith Arith Lia Bool String Ascii.
Import ListNotations.

(** ** Text: Python [str] *)

Definition char := N.
Bind Scope N_scope with char.
Definition text := list char.

(** An ASCII literal of the source, as a text. *)
Definition str (s : string) : text :=
  map N_of_ascii (list_ascii_of_string s).

Fixpoint text_eqb (a b : text) : bool :=
  match a, b with
  | [], [] => true
  | x :: a', y :: b' => N.eqb x y && text_eqb a' b'
  | _, _ => false
  end.

(** [s.startswith(pat)] *)
Fixpoint startswith (pat s : text) : bool :=
  match pat with
  | [] => true
  | p :: pat' =>
      match s with
      | [] => false
      | c :: s' => N.eqb p c && startswith pat' s'
      end
  end.

(** [pat in s] *)
Fixpoint contains (pat s : text) : bool :=
  startswith pat s ||
  match s with
  | [] => false
  | _ :: s' => contains pat s'
  end.

(** [s.count(pat)] with overlapping occurrences counted too: the number
    of positions at which [pat] starts. *)
Fixpoint count (pat s : text) : nat :=
  (if startswith pat s then 1 else 0) +
  match s with
  | [] => 0
  | _ :: s' => count pat s'
  end.

(** [s.endswith(suffix)] *)
Definition endswith (suffix s : text) : bool :=
  startswith (rev suffix) (rev s).

(** [s.replace(old, new)] for a non-empty [old]: scan from the left; at a
    position where [old] starts, emit [new] and jump over [old]; otherwise
    copy one character.  [skip] counts the characters of the current
    occurrence still to jump over. *)
Fixpoint replace_from (old new : text) (skip : nat) (s : text) : text :=
  match s with
  | [] => []
  | c :: s' =>
      match skip with
      | S k => replace_from old new k s'
      | O =>
          if startswith old s
          then new ++ replace_from old new (pred (List.length old)) s'
          else c :: replace_from old new 0 s'
      end
  end.

(** [s.replace(old, new)]; an empty [old] matches between all characters. *)
Definition replace (old new s : text) : text :=
  match old with
  | [] => new ++ flat_map (fun c => c :: new) s
  | _ :: _ => replace_from old new 0 s
  end.

(** ** The literal rule lists of [fix_file] *)

Definition em_dash : char := 8212%N.
Definition en_dash : char := 8211%N.

Definition nationwide_shipping : text :=
  Eval vm_compute in str "Nationwide Shipping".

Definition patterns_nationwide : list text :=
  Eval vm_compute in
  [ em_dash :: str " Nationwide Shipping";
    en_dash :: str " Nationwide Shipping";
    str "- Nationwide Shipping";
    str "Nationwide Shipping" ].

Definition state_replacements : list (text * text) :=
  Eval vm_compute in
  [ (str "NY, NJ, GA, & CT", str "NJ");
    (str "NY, NJ, GA & CT", str "NJ");
    (str "NY, NJ, GA, CT", str "NJ");
    (str "NY, NJ, GA", str "NJ");
    (str "in NY, NJ, GA, & CT", str "in NJ");
    (str "in NY, NJ, GA & CT", str "in NJ");
    (str "in NY, NJ, GA, CT", str "in NJ");
    (str "in NY, NJ, GA", str "in NJ") ].

Definition middle_eastern_replacements : list (text * text) :=
  Eval vm_compute in
  [ (str "Middle Eastern Restaurant", str "Halal Restaurant");
    (str "Middle Eastern Cuisine", str "Halal Cuisine");
    (str "Middle Eastern Food", str "Halal Food");
    (str "Middle,Eastern,Restaurant", str "Halal,Restaurant");
    (str "Middle,Eastern,Food", str "Halal,Food");
    (str "Middle Eastern & Mediterranean", str "Halal");
    (str "authentic Middle Eastern", str "authentic Halal");
    (str "Middle Eastern", str "Halal") ].

(** Names for the strings the properties below speak about. *)
Definition middle_eastern : text := Eval vm_compute in str "Middle Eastern".
Definition halal : text := Eval vm_compute in str "Halal".
Definition middle_eastern_restaurant : text :=
  Eval vm_compute in str "Middle Eastern Restaurant".
Definition halal_restaurant : text :=
  Eval vm_compute in str "Halal Restaurant".
Definition ny_nj_ga : text := Eval vm_compute in str "NY, NJ, GA".
Definition nj : text := Eval vm_compute in str "NJ".

(** What follows [NY, NJ, GA] in the four listed variants without [in]. *)
Definition state_tails : list text :=
  Eval vm_compute in [str ", & CT"; str " & CT"; str ", CT"; []].

(** After [NY, NJ, GA] a longer listed variant goes on. *)
Definition longer_variant_follows (post : text) : bool :=
  startswith (str ", & CT") post || startswith (str " & CT") post
  || startswith (str ", CT") post.

(** The four forms of the shipping phrase, by the dash in front. *)
Inductive dash_variant : Set := EmDash | EnDash | Hyphen | NoDash.

Definition dash_prefix (v : dash_variant) : text :=
  match v with
  | EmDash => [em_dash; 32]
  | EnDash => [en_dash; 32]
  | Hyphen => [45; 32]
  | NoDash => []
  end%N.

Definition shipping_phrase (v : dash_variant) : text :=
  dash_prefix v ++ nationwide_shipping.

(** The text ends with a dash and a space. *)
Definition dash_before (pre : text) : bool :=
  endswith (dash_prefix EmDash) pre || endswith (dash_prefix EnDash) pre
  || endswith (dash_prefix Hyphen) pre.

(** A text with one bare cuisine term at a known place, before and after
    the term is rewritten. *)
Definition bare_left (p c : text) : text := p ++ middle_eastern ++ c.
Definition bare_done (p c : text) : text := p ++ halal ++ c.
Definition settled (p c s : text) : Prop :=
  s = bare_left p c \/ s = bare_done p c.

(** The strings appended to [changes]. *)
Inductive category : Set :=
| RemovedNationwide     (* 'removed Nationwide Shipping' *)
| ReplacedStates        (* 'replaced states' *)
| ReplacedMiddleEastern (* 'replaced Middle Eastern' *).

Definition category_label (c : category) : string :=
  match c with
  | RemovedNationwide => "removed Nationwide Shipping"
  | ReplacedStates => "replaced states"
  | ReplacedMiddleEastern => "replaced Middle Eastern"
  end.

Definition category_eq_dec (a b : category) : {a = b} + {a <> b}.
Proof. decide equality. Defined.

(** The two locals a rule loop updates: [content] and [changes]. *)
Definition progress := (text * list category)%type.

(** One iteration of
    [if old in content: content = content.replace(old, new); changes.append(cat)]. *)
Definition rule_step (cat : category) (st : progress) (rule : text * text)
  : progress :=
  let '(content, changes) := st in
  let '(old, new) := rule in
  if contains old content
  then (replace old new content, changes ++ [cat])
  else st.

Definition rule_loop (cat : category) (rules : list (text * text))
  (st : progress) : progress :=
  fold_left (rule_step cat) rules st.

(** [for pattern in patterns_nationwide: ...] *)
Definition remove_nationwide (st : progress) : progress :=
  rule_loop RemovedNationwide
    (map (fun pattern => (pattern, [])) patterns_nationwide) st.

(** [for old, new in state_replacements: ...] *)
Definition replace_states (st : progress) : progress :=
  rule_loop ReplacedStates state_replacements st.

(** [for old, new in middle_eastern_replacements: ...] *)
Definition replace_middle_eastern (st : progress) : progress :=
  rule_loop ReplacedMiddleEastern middle_eastern_replacements st.

(** The state rules without the four that start with [in]. *)
Definition bare_state_replacements : list (text * text) :=
  firstn 4 state_replacements.

Definition replace_states_bare (st : progress) : progress :=
  rule_loop ReplacedStates bare_state_replacements st.

(** ** Regular expressions: the fragment of [re] the script uses

    Python's [re] is a backtracking matcher: a greedy repetition takes as
    much as it can and gives characters back one at a time, and of two
    alternatives the left one is tried first.  Every pattern of the script
    is compiled with [re.IGNORECASE]; repetition is only ever applied to a
    single character class. *)

Definition is_in (lo hi c : char) : bool := (N.leb lo c && N.leb c hi)%bool.

(** [\s] on [str]: the code points for which [str.isspace] holds. *)
Definition is_space (c : char) : bool :=
  (is_in 9 13 c || is_in 28 32 c || N.eqb c 133 || N.eqb c 160 ||
   N.eqb c 5760 || is_in 8192 8202 c || N.eqb c 8232 || N.eqb c 8233 ||
   N.eqb c 8239 || N.eqb c 8287 || N.eqb c 12288)%N.

(** Simple lower-casing as the matcher applies it to a character of the
    subject.  Only code points whose lower case is an ASCII letter are
    mapped (A-Z, U+0130 and U+212A); the other cased code points of Unicode
    are left as they are, which neither makes nor loses a match against the
    ASCII letters of the script's patterns. *)
Definition sre_lower (c : char) : char :=
  (if is_in 65 90 c then c + 32
   else if N.eqb c 304 then 105
   else if N.eqb c 8490 then 107
   else c)%N.

(** A literal of a pattern compiled with [re.IGNORECASE], already lowered:
    the subject character matches when its lower case is the literal or one
    of the literal's case-equivalents (dotless i for i, long s for s). *)
Definition lit_match (p c : char) : bool :=
  let l := sre_lower c in
  (N.eqb l p ||
   (N.eqb p 105 && N.eqb l 305) ||
   (N.eqb p 115 && N.eqb l 383))%N.

Inductive regex : Type :=
| Eps
| Lit (p : char)
| Cls (f : char -> bool)
| Star (f : char -> bool)
| Seq (r1 r2 : regex)
| Alt (r1 r2 : regex).

(** Greedy [f*] followed by the continuation [k]. *)
Fixpoint star_greedy (f : char -> bool) (k : text -> option text) (s : text)
  : option text :=
  match s with
  | [] => k []
  | c :: s' =>
      if f c
      then match star_greedy f k s' with
           | Some rest => Some rest
           | None => k s
           end
      else k s
  end.

(** [rmatch r k s]: match [r] at the start of [s], then [k] on what is
    left; the result is the text after the whole match. *)
Fixpoint rmatch (r : regex) (k : text -> option text) (s : text)
  : option text :=
  match r with
  | Eps => k s
  | Lit p =>
      match s with
      | [] => None
      | c :: s' => if lit_match p c then k s' else None
      end
  | Cls f =>
      match s with
      | [] => None
      | c :: s' => if f c then k s' else None
      end
  | Star f => star_greedy f k s
  | Seq r1 r2 => rmatch r1 (rmatch r2 k) s
  | Alt r1 r2 =>
      match rmatch r1 k s with
      | Some rest => Some rest
      | None => rmatch r2 k s
      end
  end.

(** [pattern.match(s)]: the text after the match, if there is one. *)
Definition re_match (r : regex) (s : text) : option text :=
  rmatch r (@Some text) s.

(** [re.sub(r, '', s)]: at each position from the left, delete the match
    found there and go on after it, or copy one character.  With an empty
    replacement an empty match deletes nothing. *)
Fixpoint re_sub_from (r : regex) (skip : nat) (s : text) : text :=
  match s with
  | [] => []
  | c :: s' =>
      match skip with
      | S k => re_sub_from r k s'
      | O =>
          match re_match r s with
          | Some rest =>
              match List.length s - List.length rest with
              | O => c :: re_sub_from r 0 s'
              | S k => re_sub_from r k s'
              end
          | None => c :: re_sub_from r 0 s'
          end
      end
  end.

Definition re_sub (r : regex) (s : text) : text := re_sub_from r 0 s.

Definition seq (rs : list regex) : regex := fold_right Seq Eps rs.

(** A run of literal characters of an IGNORECASE pattern. *)
Definition lits (s : string) : regex :=
  seq (map (fun c => Lit (sre_lower c)) (str s)).

Definition gt : char := 62%N.
Definition lt : char := 60%N.
Definition not_chr (x : char) (c : char) : bool := negb (N.eqb c x).
(** The quote class [\x22'] (the source writes the double quote itself) and
    its complement *)
Definition quote (c : char) : bool := (N.eqb c 34 || N.eqb c 39)%N.
Definition not_quote (c : char) : bool := negb (quote c).
(** [12] *)
Definition one_or_two (c : char) : bool := (N.eqb c 49 || N.eqb c 50)%N.

(** [<a[^>]*aria-label=[\x22']Nationwide Shipping[\x22'][^>]*>Nationwide Shipping</a>] *)
Definition link_re : regex :=
  seq [ lits "<a"; Star (not_chr gt); lits "aria-label="; Cls quote;
        lits "Nationwide Shipping"; Cls quote; Star (not_chr gt);
        lits ">Nationwide Shipping</a>" ].

(** [<li[^>]*>\s*<a[^>]*aria-label=[\x22']Nationwide Shipping[\x22'][^>]*>Nationwide Shipping</a>\s*</li>] *)
Definition li_link_re : regex :=
  seq [ lits "<li"; Star (not_chr gt); lits ">"; Star is_space;
        link_re; Star is_space; lits "</li>" ].

(** [<h[12][^>]*>\s*Nationwide\s+Shipping\s*</h[12]>] *)
Definition heading_re : regex :=
  seq [ lits "<h"; Cls one_or_two; Star (not_chr gt); lits ">";
        Star is_space; lits "Nationwide"; Cls is_space; Star is_space;
        lits "Shipping"; Star is_space; lits "</h"; Cls one_or_two;
        lits ">" ].

(** [<option\s+value=[\x22']mamouns-[^\x22']*-(?:ct|ny|nyc|ga)[\x22'][^>]*>[^<]*</option>] *)
Definition option_re : regex :=
  seq [ lits "<option"; Cls is_space; Star is_space; lits "value=";
        Cls quote; lits "mamouns-"; Star not_quote; lits "-";
        Alt (lits "ct") (Alt (lits "ny") (Alt (lits "nyc") (lits "ga")));
        Cls quote; Star (not_chr gt); lits ">"; Star (not_chr lt);
        lits "</option>" ].

(** ** The transform of [fix_file], between the read and the write *)

Definition now_shipping_hot_sauce : text :=
  Eval vm_compute in str "Now Shipping Hot Sauce Nationwide".
Definition shipping_hot_sauce : text :=
  Eval vm_compute in str "Shipping Hot Sauce Nationwide".
Definition hot_sauce_available : text :=
  Eval vm_compute in str "Hot Sauce Available".

(** The statements after the three rule loops: they update [content] and
    append nothing to [changes]. *)
Definition markup_rules (content : text) : text :=
  let content := re_sub link_re content in
  let content := re_sub li_link_re content in
  let content := re_sub heading_re content in
  let content := replace now_shipping_hot_sauce hot_sauce_available content in
  let content := replace shipping_hot_sauce hot_sauce_available content in
  re_sub option_re content.

(** [content] and [changes] when the [if content != original] is reached. *)
Definition fix_content (original : text) : progress :=
  let st := (original, []) in
  let st := remove_nationwide st in
  let st := replace_states st in
  let st := replace_middle_eastern st in
  (markup_rules (fst st), snd st).

(** ** Bytes and the UTF-8 codec *)

Definition byte := N.
Bind Scope N_scope with byte.

Definition replacement_character : char := 65533%N.

Inductive exn : Set :=
| FileNotFoundError
| PermissionError
| UnicodeDecodeError
| UnicodeEncodeError.

Inductive result (A : Type) : Type :=
| Ok (a : A)
| Raise (e : exn).
Arguments Ok {A} a.
Arguments Raise {A} e.

(** The [errors] argument of [open]. *)
Inductive errors : Set := Strict | Replace.

Definition is_continuation (b : byte) : bool := is_in 128 191 b.

(** The byte after the lead byte of a three- or four-byte sequence: the
    ranges that exclude overlong forms, surrogates and code points above
    U+10FFFF. *)
Definition second_of_three (b0 b1 : byte) : bool :=
  (if N.eqb b0 224 then is_in 160 191 b1
   else if N.eqb b0 237 then is_in 128 159 b1
   else is_continuation b1)%N.

Definition second_of_four (b0 b1 : byte) : bool :=
  (if N.eqb b0 240 then is_in 144 191 b1
   else if N.eqb b0 244 then is_in 128 143 b1
   else is_continuation b1)%N.

Inductive utf8_step : Set :=
| Decoded (c : char) (n : nat) (* a code point read from [n] bytes *)
| Invalid (n : nat)            (* invalid start or continuation byte: [n] bytes in error *)
| Truncated.                   (* unexpected end of data *)

(** One step of the decoder at the head of a non-empty input. *)
Definition utf8_next (bs : list byte) : utf8_step :=
  match bs with
  | [] => Truncated
  | b0 :: t =>
      (if b0 <? 128 then Decoded b0 1
       else if b0 <? 194 then Invalid 1
       else if b0 <? 224 then
         match t with
         | [] => Truncated
         | b1 :: _ =>
             if is_continuation b1
             then Decoded ((b0 - 192) * 64 + (b1 - 128)) 2
             else Invalid 1
         end
       else if b0 <? 240 then
         match t with
         | [] => Truncated
         | b1 :: t1 =>
             if second_of_three b0 b1 then
               match t1 with
               | [] => Truncated
               | b2 :: _ =>
                   if is_continuation b2
                   then Decoded ((b0 - 224) * 4096 + (b1 - 128) * 64
                                 + (b2 - 128)) 3
                   else Invalid 2
               end
             else Invalid 1
         end
       else if b0 <? 245 then
         match t with
         | [] => Truncated
         | b1 :: t1 =>
             if second_of_four b0 b1 then
               match t1 with
               | [] => Truncated
               | b2 :: t2 =>
                   if is_continuation b2 then
                     match t2 with
                     | [] => Truncated
                     | b3 :: _ =>
                         if is_continuation b3
                         then Decoded ((b0 - 240) * 262144
                                       + (b1 - 128) * 4096
                                       + (b2 - 128) * 64 + (b3 - 128)) 4
                         else Invalid 3
                     end
                   else Invalid 2
               end
             else Invalid 1
         end
       else Invalid 1)%N
  end.

Definition cons_ok (c : char) (r : result (text * list byte))
  : result (text * list byte) :=
  match r with
  | Ok (s, pending) => Ok (c :: s, pending)
  | Raise e => Raise e
  end.

(** The two bytes that begin the encoding of a surrogate, with nothing
    after them. *)
Definition truncated_surrogate (bs : list byte) : bool :=
  match bs with
  | [b0; b1] => (N.eqb b0 237 && is_in 160 191 b1)%N
  | _ => false
  end.

(** The incremental decoder on one chunk.  With [final] unset, an
    incomplete sequence at the end of the chunk is kept back as pending
    bytes, and so are the first two bytes of a surrogate's encoding when
    the chunk ends with them; with [final] set both are errors.
    [Replace] turns each error into one U+FFFD and goes on, [Strict]
    raises. *)
Fixpoint utf8_decode_from (e : errors) (final : bool) (skip : nat)
  (bs : list byte) : result (text * list byte) :=
  match bs with
  | [] => Ok ([], [])
  | _ :: bs' =>
      match skip with
      | S k => utf8_decode_from e final k bs'
      | O =>
          match utf8_next bs with
          | Decoded c n => cons_ok c (utf8_decode_from e final (pred n) bs')
          | Invalid n =>
              if negb final && truncated_surrogate bs then Ok ([], bs)
              else
                match e with
                | Strict => Raise UnicodeDecodeError
                | Replace =>
                    cons_ok replacement_character
                      (utf8_decode_from e final (pred n) bs')
                end
          | Truncated =>
              if final then
                match e with
                | Strict => Raise UnicodeDecodeError
                | Replace => Ok ([replacement_character], [])
                end
              else Ok ([], bs)
          end
      end
  end.

Definition utf8_decode (e : errors) (final : bool) (bs : list byte)
  : result (text * list byte) :=
  utf8_decode_from e final 0 bs.

(** The UTF-8 bytes of one code point; surrogates cannot be encoded. *)
Definition utf8_encode_char (c : char) : result (list byte) :=
  (if c <? 128 then Ok [c]
   else if c <? 2048 then Ok [192 + c / 64; 128 + c mod 64]
   else if is_in 55296 57343 c then Raise UnicodeEncodeError
   else if c <? 65536
   then Ok [224 + c / 4096; 128 + (c / 64) mod 64; 128 + c mod 64]
   else Ok [240 + c / 262144; 128 + (c / 4096) mod 64;
            128 + (c / 64) mod 64; 128 + c mod 64])%N.

Fixpoint utf8_encode (s : text) : result (list byte) :=
  match s with
  | [] => Ok []
  | c :: s' =>
      match utf8_encode_char c, utf8_encode s' with
      | Ok b, Ok bs => Ok (b ++ bs)
      | Raise e, _ => Raise e
      | _, Raise e => Raise e
      end
  end.

(** [s.encode('utf-8')] succeeds. *)
Definition encodable (s : text) : bool :=
  match utf8_encode s with
  | Ok _ => true
  | Raise _ => false
  end.

Definition CR : char := 13%N.
Definition LF : char := 10%N.

(** Reading in text mode with the default [newline=None]: universal
    newlines, every CR LF and every lone CR becomes LF. *)
Fixpoint translate_newlines (s : text) : text :=
  match s with
  | [] => []
  | c :: s' =>
      if N.eqb c CR then
        LF :: match s' with
              | [] => []
              | d :: s'' =>
                  if N.eqb d LF then translate_newlines s''
                  else translate_newlines s'
              end
      else c :: translate_newlines s'
  end.

(** The newline decoder keeps a CR at the end of a chunk back until it
    has seen what follows. *)
Definition hold_back_cr (s : text) : text :=
  if endswith [CR] s then removelast s else s.

(** ** The file system and the console *)

(** A path below the script's directory, as the text of its relative
    form with [/] between the components. *)
Definition path := text.

Record file : Type := mkfile {
  f_data : list byte;
  f_mtime : nat;        (* the tick of the last write *)
  f_readable : bool;    (* [open(_, 'r')] is permitted *)
  f_writable : bool     (* [open(_, 'w')] is permitted *)
}.

(** What the script prints, one constructor per [print] statement; the
    traceback goes to the standard error stream. *)
Inductive output : Type :=
| WorkingIn (dir : text)
| Found (n : nat)
| DebugSample (sample : text) (has_nationwide has_states has_middle_eastern : bool)
| ErrorLine (file_path : path) (e : exn)
| Traceback (e : exn)
| Processed (rel_path : path)
| Changes (changes : list category)
| Summary (processed : nat).

Record world : Type := mkworld {
  script_dir : text;
  files : list (path * file);   (* in the order the directory walk yields them *)
  clock : nat;
  console : list output
}.

Fixpoint lookup (p : path) (fs : list (path * file)) : option file :=
  match fs with
  | [] => None
  | (q, f) :: fs' => if text_eqb p q then Some f else lookup p fs'
  end.

Fixpoint store (p : path) (f : file) (fs : list (path * file))
  : list (path * file) :=
  match fs with
  | [] => [(p, f)]
  | (q, g) :: fs' =>
      if text_eqb p q then (p, f) :: fs' else (q, g) :: store p f fs'
  end.

(** Statements that read and change the world and may raise. *)
Definition action (A : Type) : Type := world -> result A * world.

Definition ret {A} (a : A) : action A := fun w => (Ok a, w).
Definition raise {A} (e : exn) : action A := fun w => (Raise e, w).

Definition bind {A B} (m : action A) (k : A -> action B) : action B :=
  fun w =>
    match m w with
    | (Ok a, w') => k a w'
    | (Raise e, w') => (Raise e, w')
    end.

Notation "x <- m ;; k" := (bind m (fun x => k))
  (at level 61, m at next level, right associativity).
Notation "m ;;; k" := (bind m (fun _ => k))
  (at level 61, right associativity).

(** [try: body except Exception as e: handler(e)] *)
Definition try_except {A} (body : action A) (handler : exn -> action A)
  : action A :=
  fun w =>
    match body w with
    | (Ok a, w') => (Ok a, w')
    | (Raise e, w') => handler e w'
    end.

Definition slash : char := 47%N.

(** [str(f)] for the file at relative path [p]. *)
Definition full_path (w : world) (p : path) : text :=
  script_dir w ++ slash :: p.

Definition show (o : output) : action unit :=
  fun w => (Ok tt, mkworld (script_dir w) (files w) (clock w)
                     (console w ++ [o])).

(** The part of a printed line that comes from a file name; what the
    script itself supplies is ASCII, and [repr] escapes what cannot be
    printed. *)
Definition printed_name (w : world) (o : output) : text :=
  match o with
  | WorkingIn dir => dir
  | ErrorLine file_path _ => full_path w file_path
  | Processed rel_path => rel_path
  | _ => []
  end.

(** [print(...)]: the script sets the standard output to UTF-8, whose
    error handler is then [strict], so a file name with an undecodable
    byte in it, which [str] holds as a lone surrogate, raises
    [UnicodeEncodeError] and nothing is written. *)
Definition print (o : output) : action unit :=
  fun w =>
    if encodable (printed_name w o) then show o w
    else (Raise UnicodeEncodeError, w).

(** [traceback.print_exc()] writes to the standard error stream, which
    escapes what it cannot encode. *)
Definition print_exc (e : exn) : action unit := show (Traceback e).

(** [open(p, 'r')] followed by reading the raw bytes. *)
Definition read_bytes (p : path) : action (list byte) :=
  fun w =>
    match lookup p (files w) with
    | None => (Raise FileNotFoundError, w)
    | Some f =>
        if f_readable f then (Ok (f_data f), w)
        else (Raise PermissionError, w)
    end.

(** [with open(p, 'r', encoding='utf-8', errors='replace') as f: f.read()] *)
Definition read_text (p : path) : action text :=
  bs <- read_bytes p ;;
  match utf8_decode Replace true bs with
  | Ok (s, _) => ret (translate_newlines s)
  | Raise e => raise e
  end.

(** [open(p, 'w')]: permission check, then the file is truncated (or
    created) before anything is written. *)
Definition open_for_writing (p : path) : action unit :=
  fun w =>
    let truncated readable :=
      mkworld (script_dir w)
        (store p (mkfile [] (clock w) readable true) (files w))
        (S (clock w)) (console w) in
    match lookup p (files w) with
    | None => (Ok tt, truncated true)
    | Some f =>
        if f_writable f then (Ok tt, truncated (f_readable f))
        else (Raise PermissionError, w)
    end.

Definition write_bytes (p : path) (bs : list byte) : action unit :=
  fun w =>
    match lookup p (files w) with
    | None => (Raise FileNotFoundError, w)
    | Some f =>
        (Ok tt,
         mkworld (script_dir w)
           (store p (mkfile bs (f_mtime f) (f_readable f) (f_writable f))
              (files w))
           (clock w) (console w))
    end.

(** [with open(p, 'w', encoding='utf-8', newline='') as f: f.write(s)]:
    with [newline=''] the characters are encoded as they are. *)
Definition write_text (p : path) (s : text) : action unit :=
  open_for_writing p ;;;
  match utf8_encode s with
  | Ok bs => write_bytes p bs
  | Raise e => raise e
  end.

(** [list(set(changes))]: the distinct elements; Python fixes no order. *)
Definition list_set (changes : list category) : list category :=
  nodup category_eq_dec changes.

(** ** [fix_file] *)

Definition fix_file_body (file_path : path) : action (bool * list category) :=
  content <- read_text file_path ;;
  let original := content in
  let '(content, changes) := fix_content content in
  if negb (text_eqb content original) then
    write_text file_path content ;;;
    ret (true, list_set changes)
  else ret (false, []).

Definition fix_file (file_path : path) : action (bool * list category) :=
  try_except (fix_file_body file_path)
    (fun e =>
       print (ErrorLine file_path e) ;;;
       print_exc e ;;;
       ret (false, [])).

(** ** The main script *)

(** [f.name]: the last component. *)
Fixpoint name (p : path) : text :=
  match p with
  | [] => []
  | c :: p' =>
      if existsb (N.eqb slash) p' then name p'
      else if N.eqb c slash then p' else p
  end.

Definition excluded : list text :=
  Eval vm_compute in
  [ str "signals"; str "schema.org"; str "replace_"; str "update_";
    str "fix_"; str "final_" ].

(** [script_dir.rglob('*.html')], then the exclusion filter on [str(f)]. *)
Definition discover (w : world) : list path :=
  filter
    (fun p => negb (existsb (fun x => contains x (full_path w p)) excluded))
    (filter (fun p => endswith (str ".html") (name p)) (map fst (files w))).

Definition CHUNK_SIZE : N := 8192%N.

(** [with open(html_file, 'r', encoding='utf-8') as f: f.read(500)]: the
    text layer decodes the first chunk of the file strictly and hands on
    its characters, but for a CR at the very end; it reads on only while
    it has fewer than 500 characters, which for a chunk of full size never
    happens, and at the end of the file pending bytes of an incomplete
    sequence are an error and a CR kept back comes out as LF. *)
Definition read_sample (p : path) : action text :=
  bs <- read_bytes p ;;
  match utf8_decode Strict false (firstn (N.to_nat CHUNK_SIZE) bs) with
  | Raise e => raise e
  | Ok (s, pending) =>
      let ready := translate_newlines (hold_back_cr s) in
      if (500 <=? List.length ready)%nat then ret (firstn 500 ready)
      else
        match pending with
        | [] => ret (firstn 500 (translate_newlines s))
        | _ :: _ => raise UnicodeDecodeError
        end
  end.

(** The [# Debug: check first file] block. *)
Definition debug_block (html_file : path) : action unit :=
  if text_eqb (name html_file) (str "index.html") then
    sample <- read_sample html_file ;;
    print (DebugSample sample
             (contains (str "Nationwide") sample)
             (contains (str "NY, NJ, GA") sample)
             (contains (str "Middle Eastern") sample))
  else ret tt.

(** [for html_file in html_files: ...] with the counter [processed]. *)
Fixpoint process_files (html_files : list path) (processed : nat)
  : action nat :=
  match html_files with
  | [] => ret processed
  | html_file :: rest =>
      debug_block html_file ;;;
      r <- fix_file html_file ;;
      let '(changed, changes) := r in
      if changed then
        print (Processed html_file) ;;;
        (match changes with
         | [] => ret tt
         | _ :: _ => print (Changes changes)
         end) ;;;
        process_files rest (S processed)
      else process_files rest processed
  end.

Definition main : action nat :=
  fun w =>
    (print (WorkingIn (script_dir w)) ;;;
     let html_files := discover w in
     print (Found (List.length html_files)) ;;;
     processed <- process_files html_files 0 ;;
     print (Summary processed) ;;;
     ret processed) w.

(** ** Vocabulary of the properties *)

(** [pattern.search(s)] *)
Fixpoint re_search (r : regex) (s : text) : bool :=
  match re_match r s with
  | Some _ => true
  | None =>
      match s with
      | [] => false
      | _ :: s' => re_search r s'
      end
  end.

(** Every literal the script looks for, and its four patterns. *)
Definition literal_targets : list text :=
  patterns_nationwide ++ map fst state_replacements
  ++ map fst middle_eastern_replacements
  ++ [now_shipping_hot_sauce; shipping_hot_sauce].

Definition pattern_targets : list regex :=
  [link_re; li_link_re; heading_re; option_re].

(** The text contains one of the target patterns. *)
Definition has_target (s : text) : bool :=
  existsb (fun old => contains old s) literal_targets
  || existsb (fun r => re_search r s) pattern_targets.

(** A rule of the category's loop finds its pattern in the content the
    loop starts with. *)
Definition fired (cat : category) (original : text) : bool :=
  match cat with
  | RemovedNationwide =>
      existsb (fun old => contains old original) patterns_nationwide
  | ReplacedStates =>
      existsb (fun rule => contains (fst rule)
                             (fst (remove_nationwide (original, []))))
        state_replacements
  | ReplacedMiddleEastern =>
      existsb (fun rule => contains (fst rule)
                             (fst (replace_states
                                     (remove_nationwide (original, [])))))
        middle_eastern_replacements
  end.

(** [fix_content] with the four [in ...] state rules taken out. *)
Definition fix_content_bare (original : text) : progress :=
  let st := (original, []) in
  let st := remove_nationwide st in
  let st := replace_states_bare st in
  let st := replace_middle_eastern st in
  (markup_rules (fst st), snd st).

(** An occurrence of [K] that begins in [s1] and ends in [s2], where the
    two are put side by side. *)
Definition crossing (K s1 s2 : text) : bool :=
  existsb (fun i => endswith (firstn i K) s1 && startswith (skipn i K) s2)
    (List.seq 1 (pred (List.length K))).

(** [K] occurs in [p ++ K ++ t] at that one place only. *)
Definition sole (K p t : text) : Prop :=
  forall l r, p ++ K ++ t = l ++ K ++ r -> l = p.

Definition middle : text := Eval vm_compute in str "Middle".

(** Every match of the pattern takes at least one character. *)
Fixpoint consumes (r : regex) : bool :=
  match r with
  | Eps | Star _ => false
  | Lit _ | Cls _ => true
  | Seq r1 r2 => consumes r1 || consumes r2
  | Alt r1 r2 => consumes r1 && consumes r2
  end.

(** A continuation of the matcher returns a rest no longer, or shorter,
    than the text it is given. *)
Definition bounded (k : text -> option text) : Prop :=
  forall t v, k t = Some v -> List.length v <= List.length t.

Definition shrinking (k : text -> option text) : Prop :=
  forall t v, k t = Some v -> List.length v < List.length t.

(** A step of the transform that leaves a text without its target as it
    is and makes a text with its target shorter. *)
Definition stage_ok (target : text -> bool) (f : text -> text) : Prop :=
  forall s,
    List.length (f s) <= List.length s /\
    (target s = false -> f s = s) /\
    (target s = true -> List.length (f s) < List.length s).

(** ** Capital letters that begin a full target *)

Definition capital_N : char := 78%N.
Definition capital_M : char := 77%N.

(** The text [s] begins with one of [heads], or what follows its first
    character is something that [safe] admits. *)
Definition led_here (heads : list text) (safe : text -> bool) (s : text)
  : bool :=
  existsb (fun h => startswith h s) heads ||
  match s with
  | _ :: follow => safe follow
  | [] => false
  end.

(** At every place of [s] where the character [hot] stands, one of
    [heads] begins or something that [safe] admits follows. *)
Fixpoint led (hot : char) (heads : list text) (safe : text -> bool)
  (s : text) : bool :=
  match s with
  | [] => true
  | c :: s' =>
      (negb (N.eqb c hot) || led_here heads safe s)
      && led hot heads safe s'
  end.

(** The same for the places of [a] in the text [a ++ rest]. *)
Fixpoint led_in (hot : char) (heads : list text) (safe : text -> bool)
  (a rest : text) : bool :=
  match a with
  | [] => true
  | c :: a' =>
      (negb (N.eqb c hot) || led_here heads safe (a ++ rest))
      && led_in hot heads safe a' rest
  end.

(** The heads other than [old]. *)
Definition others (old : text) (heads : list text) : list text :=
  filter (fun h => negb (text_eqb h old)) heads.

(** One of the two texts begins with the other. *)
Definition agree (x y : text) : bool := startswith x y || startswith y x.

(** The pattern [old] cannot begin in the middle of what leads a hot
    character: its first character is not a quiet one, and it goes along
    with no proper tail of a head. *)
Definition clear_of (heads : list text) (quiet : char -> bool) (old : text)
  : bool :=
  match old with
  | [] => false
  | f :: _ => negb (quiet f)
  end
  && forallb (fun h =>
                forallb (fun i => negb (agree (skipn i h) old))
                  (List.seq 1 (pred (List.length h))))
       heads.

(** Every rule of the list, at its turn, is clear of the heads still to
    come, and what it puts in is led by them. *)
Fixpoint rules_clear (hot : char) (quiet : char -> bool)
  (safe : text -> bool) (heads : list text) (rules : list (text * text))
  : bool :=
  match rules with
  | [] => true
  | (old, new) :: rules' =>
      clear_of (others old heads) quiet old
      && led hot (others old heads) safe new
      && rules_clear hot quiet safe (others old heads) rules'
  end.

Definition heads_after (heads : list text) (rules : list (text * text))
  : list text :=
  fold_left (fun hs rule => others (fst rule) hs) rules heads.

(** A character with which one of [targets] begins. *)
Definition opens (targets : list text) (f : char) : bool :=
  existsb (fun t => startswith [f] t) targets.

(** What may follow a hot character that begins no head: a quiet
    character [f] that is plain, or a quiet [f] and after it a quiet
    character at which the run cannot go on. *)
Definition follows (quiet plain stop : char -> bool) (follow : text) : bool :=
  match follow with
  | [] => false
  | f :: rest =>
      quiet f &&
      (plain f ||
       match rest with
       | [] => false
       | g :: _ => quiet g && negb (stop g)
       end)
  end.

(** A letter with which, after [<], one of the four patterns goes on:
    [a], [l], [h] or [o] in either case. *)
Definition opens_tag (f : char) : bool :=
  existsb (fun p => lit_match p f) [97; 108; 104; 111]%N.

(** A character with which no literal target begins. *)
Definition quiet (f : char) : bool := negb (opens literal_targets f).

Definition capital_Y : char := 89%N.
Definition comma : char := 44%N.

(** After a capital N: not [Y], or [Y] and then no comma. *)
Definition after_N : text -> bool :=
  follows quiet (fun f => negb (N.eqb f capital_Y)) (N.eqb comma).
(** After a capital M: any quiet character ([i] is not one). *)
Definition after_M : text -> bool :=
  follows quiet (fun _ => true) (fun _ => true).
(** After [<]: no letter that opens one of the tags. *)
Definition after_lt : text -> bool :=
  follows quiet (fun f => negb (opens_tag f)) (fun _ => true).

Definition shipping_heads : list text := [nationwide_shipping; ny_nj_ga].
Definition cuisine_heads : list text :=
  Eval vm_compute in
  [ str "Middle Eastern"; str "Middle,Eastern,Restaurant";
    str "Middle,Eastern,Food" ].

(** No loose piece of a target: every capital N begins [Nationwide
    Shipping] or [NY, NJ, GA], every capital M begins [Middle Eastern] or
    one of the two comma forms, or what follows it is admitted; and no
    [<] opens a tag that one of the patterns looks for. *)
Definition tidy (s : text) : bool :=
  led capital_N shipping_heads after_N s
  && led capital_M cuisine_heads after_M s
  && led lt [] after_lt s.

(** The literal rules in the order [fix_file] runs them. *)
Definition literal_rules : list (text * text) :=
  map (fun pattern => (pattern, [])) patterns_nationwide
  ++ state_replacements ++ middle_eastern_replacements.

(** For the state rules alone: the characters with which neither a
    shipping pattern nor a region list begins. *)
Definition quiet_for_states (f : char) : bool :=
  negb (opens (patterns_nationwide ++ map fst bare_state_replacements) f).

Definition after_N_states : text -> bool :=
  follows quiet_for_states (fun f => negb (N.eqb f capital_Y)) (N.eqb comma).

(** ** Vocabulary of the cuisine terms *)

Definition amp_mediterranean : text :=
  Eval vm_compute in str " & Mediterranean".

(** The term ends with [Middle Eastern] and [ & Mediterranean] comes after
    it: what stands there is the pair, not the term. *)
Definition paired (old after : text) : bool :=
  endswith middle_eastern old && startswith amp_mediterranean after.

(** A character that occurs in none of the cuisine patterns. *)
Definition foreign (c : char) : bool :=
  forallb (fun rule : text * text => negb (existsb (N.eqb c) (fst rule)))
    middle_eastern_replacements.

(** Not the script's list: the cuisine rules with the last one, the bare
    term, moved to the front. *)
Definition catch_all_first : list (text * text) :=
  (middle_eastern, halal) :: firstn 7 middle_eastern_replacements.

(** ** Sample inputs *)

Definition open_daily : text :=
  Eval vm_compute in
  str "Open Daily " ++ shipping_phrase EmDash.

Definition serving_residents : text :=
  Eval vm_compute in str "Serving NY, NJ, GA, & CT residents".

Definition spliced_region_list : text :=
  Eval vm_compute in str "in NY, NY, NJ, GA, GA".

Definition li_wrapped_link : text :=
  Eval vm_compute in
  str "<li><a aria-label='nationwide shipping' href='/ship'>nationwide shipping</a></li>".

Definition heading_only : text :=
  Eval vm_compute in str "<h1>NATIONWIDE SHIPPING</h1>".

Definition plain_file (data : list byte) : file := mkfile data 0 true true.

(** A page with CR LF line ends and the shipping phrase. *)
Definition crlf_page : list byte :=
  Eval vm_compute in
  str "Open Daily - Nationwide Shipping" ++ [CR; LF] ++ str "Menu" ++ [CR; LF].

Definition crlf_site : world :=
  mkworld (str "/srv/site") [(str "menu.html", plain_file crlf_page)] 1 [].

(** A site whose [index.html] starts with a byte that is not UTF-8. *)
Definition broken_index_site : world :=
  mkworld (str "/srv/site")
    [ (str "index.html", plain_file (255%N :: str "<p>Nationwide Shipping</p>"));
      (str "menu.html", plain_file (str "<p>Nationwide Shipping</p>")) ]
    1 [].

(** A site whose only page is changed by the heading pattern alone. *)
Definition heading_site : world :=
  mkworld (str "/srv/site") [(str "h.html", plain_file heading_only)] 1 [].

(** A region list inside the pieces of another one. *)
Definition nested_region_list : text :=
  Eval vm_compute in str "NY, NY, NJ, GA, GA".

(** A site with one page that needs no change. *)
Definition quiet_site : world :=
  mkworld (str "/srv/site")
    [(str "about.html", plain_file (str "<p>Open Daily</p>"))] 1 [].

(** A page with a shipping phrase, a region list and cuisine terms, and
    no loose piece of any of them. *)
Definition tidy_page : text :=
  Eval vm_compute in
  str "<p>Open Daily " ++ [em_dash]
  ++ str " Nationwide Shipping</p><p>Serving in NY, NJ, GA, & CT, also New York, NY 10012</p><p>authentic Middle Eastern food, Middle Eastern & Mediterranean</p>".

(** A text with a region list after [in] and other capital N. *)
Definition region_page : text :=
  Eval vm_compute in
  str "Now in NY, NJ, GA & CT - Nationwide Shipping from New York, NY 10012".

(** * Facts about text *)

Section TextFacts.

Lemma text_eqb_eq (a b : text) : text_eqb a b = true <-> a = b.
Proof.
  revert b; induction a as [|x a IH]; intros [|y b]; simpl; split;
    try congruence; try reflexivity.
  - intros H. apply andb_true_iff in H as [Hx Hab].
    apply N.eqb_eq in Hx. apply IH in Hab. congruence.
  - intros H. injection H as -> ->. rewrite N.eqb_refl. simpl.
    now apply IH.
Qed.

Lemma text_eqb_refl (a : text) : text_eqb a a = true.
Proof. now apply text_eqb_eq. Qed.

Lemma startswith_spec (pat s : text) :
  startswith pat s = true <-> exists r, s = pat ++ r.
Proof.
  revert s; induction pat as [|p pat IH]; intros s; simpl.
  - split; [intros _; now exists s | reflexivity].
  - destruct s as [|c s]; [split; [discriminate | intros [r Hr]; discriminate]|].
    rewrite andb_true_iff, N.eqb_eq, IH. split.
    + intros [-> [r ->]]. now exists r.
    + intros [r Hr]. injection Hr as -> ->. split; [reflexivity | now exists r].
Qed.

Lemma startswith_app (pat s : text) : startswith pat (pat ++ s) = true.
Proof. apply startswith_spec. now exists s. Qed.

Lemma contains_spec (pat s : text) :
  contains pat s = true <-> exists l r, s = l ++ pat ++ r.
Proof.
  induction s as [|c s IH].
  - simpl. rewrite orb_false_r, startswith_spec. split.
    + intros [r Hr]. now exists [], r.
    + intros [l [r Hr]]. destruct l; [now exists r | discriminate].
  - simpl. rewrite orb_true_iff, startswith_spec, IH. split.
    + intros [[r Hr] | [l [r Hr]]].
      * now exists [], r.
      * exists (c :: l), r. simpl. now rewrite Hr.
    + intros [[|x l] [r Hr]].
      * left. now exists r.
      * right. injection Hr as -> ->. now exists l, r.
Qed.

Lemma contains_here (pat l r : text) : contains pat (l ++ pat ++ r) = true.
Proof. apply contains_spec. now exists l, r. Qed.

(** A text that contains a pattern contains every part of the pattern. *)
Lemma contains_part (u pat v s : text) :
  contains (u ++ pat ++ v) s = true -> contains pat s = true.
Proof.
  rewrite !contains_spec. intros [l [r ->]].
  exists (l ++ u), (v ++ r). now rewrite <- !app_assoc.
Qed.

Lemma contains_tail (pat : text) (c : char) (s : text) :
  contains pat (c :: s) = false -> contains pat s = false.
Proof. simpl. intros H. now apply orb_false_iff in H. Qed.

Lemma replace_from_skip (old new l s : text) :
  replace_from old new (List.length l) (l ++ s) = replace_from old new 0 s.
Proof.
  induction l as [|c l IH]; simpl; [|exact IH].
  destruct s; reflexivity.
Qed.

Lemma replace_from_absent (old new s : text) :
  contains old s = false -> replace_from old new 0 s = s.
Proof.
  induction s as [|c s IH]; intros H; [reflexivity|].
  simpl in H. apply orb_false_iff in H as [H1 H2].
  cbn [replace_from]. rewrite H1. now rewrite IH.
Qed.

Lemma replace_from_here (old new s : text) :
  old <> [] ->
  replace_from old new 0 (old ++ s) = new ++ replace_from old new 0 s.
Proof.
  destruct old as [|c old]; [congruence|]. intros _.
  change ((c :: old) ++ s) with (c :: (old ++ s)).
  cbn [replace_from].
  change (c :: old ++ s) with ((c :: old) ++ s).
  rewrite startswith_app. cbn [List.length pred].
  now rewrite replace_from_skip.
Qed.

Lemma replace_nonempty (old new s : text) :
  old <> [] -> replace old new s = replace_from old new 0 s.
Proof. destruct old; [congruence | reflexivity]. Qed.

(** A pattern that occurs exactly once is replaced there and nowhere
    else. *)
Lemma replace_from_unique (old new pre post : text) :
  old <> [] ->
  (forall l r, pre ++ old ++ post = l ++ old ++ r -> l = pre) ->
  replace_from old new 0 (pre ++ old ++ post) = pre ++ new ++ post.
Proof.
  intros Hne. induction pre as [|c pre IH]; intros Huniq.
  - simpl. rewrite replace_from_here by assumption. f_equal.
    apply replace_from_absent.
    destruct (contains old post) eqn:E; [|reflexivity].
    apply contains_spec in E as [l [r ->]].
    specialize (Huniq (old ++ l) r). rewrite <- app_assoc in Huniq.
    specialize (Huniq eq_refl). destruct old; [congruence | discriminate].
  - change ((c :: pre) ++ old ++ post) with (c :: (pre ++ old ++ post)).
    cbn [replace_from].
    destruct (startswith old (c :: pre ++ old ++ post)) eqn:E.
    + apply startswith_spec in E as [r Hr].
      specialize (Huniq [] r Hr). discriminate.
    + change ((c :: pre) ++ new ++ post) with (c :: (pre ++ new ++ post)).
      f_equal. apply IH. intros l r Hlr.
      specialize (Huniq (c :: l) r). simpl in Huniq.
      rewrite Hlr in Huniq. specialize (Huniq eq_refl). congruence.
Qed.

Lemma endswith_spec (u s : text) :
  endswith u s = true <-> exists l, s = l ++ u.
Proof.
  unfold endswith. rewrite startswith_spec. split.
  - intros [r Hr]. exists (rev r).
    rewrite <- (rev_involutive s), Hr, rev_app_distr, rev_involutive.
    reflexivity.
  - intros [l ->]. exists (rev l). apply rev_app_distr.
Qed.

End TextFacts.

(** ** Occurrences across a seam *)

Lemma firstn_skipn_app (k m : text) :
  firstn (List.length k) (k ++ m) = k /\ skipn (List.length k) (k ++ m) = m.
Proof.
  induction k as [|c k [IH1 IH2]]; [now split|].
  cbn. now rewrite IH1, IH2.
Qed.

Lemma crossing_intro (k m s1 s2 : text) :
  k <> [] -> m <> [] ->
  endswith k s1 = true -> startswith m s2 = true ->
  crossing (k ++ m) s1 s2 = true.
Proof.
  intros Hk Hm H1 H2. unfold crossing. apply existsb_exists.
  exists (List.length k). split.
  - apply in_seq. rewrite length_app.
    destruct k; [congruence|]. destruct m; [congruence|]. cbn. lia.
  - destruct (firstn_skipn_app k m) as [-> ->]. now rewrite H1, H2.
Qed.

Lemma contains_at_start (K r : text) : contains K (K ++ r) = true.
Proof. exact (contains_here K [] r). Qed.

Lemma contains_at_end (K l : text) : contains K (l ++ K) = true.
Proof.
  rewrite <- (app_nil_r K) at 2. apply contains_here.
Qed.

(** An occurrence in [s1 ++ s2] lies in [s1], in [s2], or across. *)
Lemma contains_app_false (K s1 s2 : text) :
  contains K s1 = false -> crossing K s1 s2 = false ->
  contains K s2 = false -> contains K (s1 ++ s2) = false.
Proof.
  intros H1 Hx H2.
  destruct (contains K (s1 ++ s2)) eqn:E; [exfalso | reflexivity].
  apply contains_spec in E as [l [r E]].
  apply app_eq_app in E as [k [[E1 E2] | [E1 E2]]].
  - apply app_eq_app in E2 as [m [[E3 E4] | [E3 E4]]].
    + destruct k as [|c k].
      * simpl in E3. subst m. rewrite E4, contains_at_start in H2.
        discriminate.
      * destruct m as [|d m].
        { rewrite app_nil_r in E3. subst K.
          rewrite E1, contains_at_end in H1. discriminate. }
        { assert (crossing K s1 s2 = true) as C; [|congruence].
          rewrite E3. apply crossing_intro; try discriminate.
          - apply endswith_spec. now exists l.
          - apply startswith_spec. now exists r. }
    + rewrite E1, E3, contains_here in H1. discriminate.
  - rewrite E2, contains_here in H2. discriminate.
Qed.

(** Before the first occurrence there is none. *)
Lemma first_site (K p t l r : text) :
  contains K p = false -> crossing K p (K ++ t) = false ->
  p ++ K ++ t = l ++ K ++ r -> List.length p <= List.length l.
Proof.
  intros Hp Hx E.
  apply app_eq_app in E as [k [[E1 E2] | [E1 E2]]].
  - destruct k as [|c k]; [rewrite E1, app_nil_r; apply le_n | exfalso].
    apply app_eq_app in E2 as [m [[E3 E4] | [E3 E4]]].
    + destruct m as [|d m].
      * rewrite app_nil_r in E3. subst K.
        rewrite E1, contains_at_end in Hp. discriminate.
      * assert (crossing K p (K ++ t) = true) as C; [|congruence].
        rewrite E3 at 1. apply crossing_intro; try discriminate.
        { apply endswith_spec. now exists l. }
        { apply startswith_spec. now exists r. }
    + rewrite E1, E3, contains_here in Hp. discriminate.
  - rewrite E1, length_app. lia.
Qed.

Lemma sole_site (K p t : text) :
  K <> [] ->
  contains K p = false -> crossing K p (K ++ t) = false ->
  contains K (tl (K ++ t)) = false ->
  sole K p t.
Proof.
  intros Hne Hp Hx Ht l r E.
  pose proof (first_site K p t l r Hp Hx E) as Hlen.
  apply app_eq_app in E as [k [[E1 E2] | [E1 E2]]].
  - destruct k as [|c k]; [now rewrite app_nil_r in E1|].
    apply (f_equal (@List.length char)) in E1.
    rewrite length_app in E1. cbn in E1. lia.
  - destruct k as [|c k]; [now rewrite app_nil_r in E1|exfalso].
    rewrite E2 in Ht. cbn [app tl] in Ht.
    now rewrite contains_here in Ht.
Qed.

(** ** One rule of a loop *)

Lemma rule_step_skip (cat : category) (content : text) (ch : list category)
  (old new : text) :
  contains old content = false ->
  rule_step cat (content, ch) (old, new) = (content, ch).
Proof. intros H. unfold rule_step. now rewrite H. Qed.

Lemma rule_step_fire (cat : category) (content : text) (ch : list category)
  (old new : text) :
  contains old content = true ->
  rule_step cat (content, ch) (old, new)
  = (replace old new content, ch ++ [cat]).
Proof. intros H. unfold rule_step. now rewrite H. Qed.

(** The content a rule loop computes does not depend on [changes]. *)
Lemma rule_loop_content (cat : category) (rules : list (text * text))
  (st : progress) :
  fst (rule_loop cat rules st) = fst (rule_loop cat rules (fst st, [])).
Proof.
  unfold rule_loop. revert st.
  induction rules as [|[old new] rules IH]; intros [s ch]; [reflexivity|].
  cbn [fold_left fst]. rewrite IH. symmetry. rewrite IH.
  unfold rule_step. destruct (contains old s); reflexivity.
Qed.


(** ** Patterns around an anchor that stands once *)

Lemma contains_sole (K u v p t : text) :
  sole K p t ->
  contains (u ++ K ++ v) (p ++ K ++ t) = true ->
  exists p' t', p = p' ++ u /\ t = v ++ t'.
Proof.
  intros Hs H. apply contains_spec in H as [l [r H]].
  replace (l ++ (u ++ K ++ v) ++ r) with ((l ++ u) ++ K ++ (v ++ r)) in H
    by (rewrite <- !app_assoc; reflexivity).
  pose proof (Hs _ _ H) as E. rewrite E in H.
  do 2 apply app_inv_head in H. now exists l, r.
Qed.

Lemma replace_from_sole (K u v new p' t' : text) :
  K <> [] ->
  sole K (p' ++ u) (v ++ t') ->
  replace_from (u ++ K ++ v) new 0 (p' ++ (u ++ K ++ v) ++ t')
  = p' ++ new ++ t'.
Proof.
  intros Hne Hs. apply replace_from_unique.
  - destruct u; [destruct K; [congruence | discriminate] | discriminate].
  - intros l r H.
    replace (p' ++ (u ++ K ++ v) ++ t') with ((p' ++ u) ++ K ++ (v ++ t'))
      in H by (rewrite <- !app_assoc; reflexivity).
    replace (l ++ (u ++ K ++ v) ++ r) with ((l ++ u) ++ K ++ (v ++ r)) in H
      by (rewrite <- !app_assoc; reflexivity).
    apply Hs in H. now apply app_inv_tail in H.
Qed.

(** The first occurrence is replaced and the scan goes on after it. *)
Lemma replace_from_first (old new pre post : text) :
  old <> [] ->
  (forall l r, pre ++ old ++ post = l ++ old ++ r ->
               List.length pre <= List.length l) ->
  replace_from old new 0 (pre ++ old ++ post)
  = pre ++ new ++ replace_from old new 0 post.
Proof.
  intros Hne. induction pre as [|c pre IH]; intros Hfirst.
  - cbn [app]. now apply replace_from_here.
  - change ((c :: pre) ++ old ++ post) with (c :: (pre ++ old ++ post)).
    cbn [replace_from].
    destruct (startswith old (c :: pre ++ old ++ post)) eqn:E.
    + apply startswith_spec in E as [r Hr].
      specialize (Hfirst [] r Hr). cbn in Hfirst. lia.
    + change ((c :: pre) ++ new ++ replace_from old new 0 post)
        with (c :: (pre ++ new ++ replace_from old new 0 post)).
      f_equal. apply IH. intros l r Hlr.
      specialize (Hfirst (c :: l) r). cbn in Hfirst.
      rewrite Hlr in Hfirst. specialize (Hfirst eq_refl). lia.
Qed.

Lemma in_skipn (x : char) (n : nat) (l : text) :
  In x (skipn n l) -> In x l.
Proof.
  intros H. rewrite <- (firstn_skipn n l). apply in_or_app. now right.
Qed.

(** No occurrence crosses into a text whose first character is none of
    the anchor's later characters. *)
Lemma crossing_first_char (K s1 s2 : text) (c : char) :
  forallb (fun x => negb (N.eqb x c)) (tl K) = true ->
  crossing K s1 (c :: s2) = false.
Proof.
  intros Hc. apply not_true_iff_false. intros E. unfold crossing in E.
  apply existsb_exists in E as [i [Hi E]]. apply in_seq in Hi.
  apply andb_true_iff in E as [_ E].
  destruct (skipn i K) as [|x m] eqn:S.
  - apply (f_equal (@List.length char)) in S. rewrite length_skipn in S.
    cbn in S. lia.
  - cbn [startswith] in E. apply andb_true_iff in E as [E _].
    apply N.eqb_eq in E. subst x.
    assert (In c (tl K)) as Hin.
    { destruct i as [|i]; [lia|]. destruct K as [|k0 K']; [discriminate|].
      cbn [skipn tl] in *. apply (in_skipn c i). rewrite S. now left. }
    rewrite forallb_forall in Hc. specialize (Hc c Hin).
    now rewrite N.eqb_refl in Hc.
Qed.

(** ** The cuisine rules on a text with one bare term *)

Section OneBareTerm.

Variables p c : text.
Hypothesis Hp : contains middle p = false.
Hypothesis Hc : contains middle c = false.

Let eastern : text := str " Eastern".

Lemma bare_sole : sole middle p (eastern ++ c).
Proof.
  apply sole_site; [discriminate | exact Hp | |].
  - change (middle ++ eastern ++ c)
      with (77%N :: (tl middle ++ eastern ++ c)).
    apply crossing_first_char. vm_compute. reflexivity.
  - change (tl (middle ++ eastern ++ c)) with (str "iddle Eastern" ++ c).
    apply contains_app_false; [vm_compute; reflexivity | | exact Hc].
    vm_compute. reflexivity.
Qed.

Lemma bare_done_free : contains middle (bare_done p c) = false.
Proof.
  unfold bare_done. apply contains_app_false; [exact Hp | |].
  - change (halal ++ c) with (72%N :: (tl halal ++ c)).
    apply crossing_first_char. vm_compute. reflexivity.
  - apply contains_app_false; [vm_compute; reflexivity | | exact Hc].
    vm_compute. reflexivity.
Qed.

(** A rule [u ++ Middle Eastern ++ w -> u ++ Halal ++ w] that finds its
    pattern turns the bare term into [Halal] and changes nothing else. *)
Lemma rewrite_rule_on_bare (u w : text) :
  contains (u ++ middle_eastern ++ w) (bare_left p c) = true ->
  replace (u ++ middle_eastern ++ w) (u ++ halal ++ w) (bare_left p c)
  = bare_done p c.
Proof.
  intros H.
  rewrite replace_nonempty by (destruct u; discriminate).
  unfold bare_left in *.
  change (p ++ middle_eastern ++ c) with (p ++ middle ++ (eastern ++ c)) in *.
  change (u ++ middle_eastern ++ w)
    with (u ++ middle ++ (eastern ++ w)) in *.
  destruct (contains_sole middle u (eastern ++ w) p (eastern ++ c)
              bare_sole H) as [p' [t' [Ep Et]]].
  rewrite <- app_assoc in Et. apply app_inv_head in Et.
  replace (p ++ middle ++ eastern ++ c)
    with (p' ++ (u ++ middle ++ eastern ++ w) ++ t').
  2:{ rewrite Ep, Et, <- !app_assoc. reflexivity. }
  rewrite replace_from_sole.
  - unfold bare_done. rewrite Ep, Et, <- !app_assoc. reflexivity.
  - discriminate.
  - rewrite <- Ep, <- app_assoc, <- Et. exact bare_sole.
Qed.

Lemma rewrite_rule_settled (cat : category) (u w : text) (st : progress) :
  settled p c (fst st) ->
  settled p c (fst (rule_step cat st
                      (u ++ middle_eastern ++ w, u ++ halal ++ w))).
Proof.
  intros Hs. destruct st as [s ch]. cbn [fst] in Hs.
  destruct (contains (u ++ middle_eastern ++ w) s) eqn:E.
  - rewrite rule_step_fire by assumption. cbn [fst]. right.
    destruct Hs as [-> | ->].
    + now apply rewrite_rule_on_bare.
    + apply (contains_part u middle (eastern ++ w)) in E.
      now rewrite bare_done_free in E.
  - rewrite rule_step_skip by assumption. exact Hs.
Qed.

(** A pattern that goes on after [Middle] in another way than the text
    does not occur. *)
Lemma other_rule_settled (cat : category) (v new : text) (st : progress) :
  (forall t', eastern ++ c <> v ++ t') ->
  settled p c (fst st) ->
  settled p c (fst (rule_step cat st (middle ++ v, new))).
Proof.
  intros Hv Hs. destruct st as [s ch]. cbn [fst] in Hs.
  destruct (contains (middle ++ v) s) eqn:E.
  - exfalso. destruct Hs as [-> | ->].
    + unfold bare_left in E.
      destruct (contains_sole middle [] v p (eastern ++ c) bare_sole E)
        as [p' [t' [_ Et]]].
      exact (Hv t' Et).
    + apply (contains_part [] middle v) in E.
      now rewrite bare_done_free in E.
  - rewrite rule_step_skip by assumption. exact Hs.
Qed.

Lemma last_rule_done (cat : category) (st : progress) :
  settled p c (fst st) ->
  fst (rule_step cat st (middle_eastern, halal)) = bare_done p c.
Proof.
  destruct st as [s ch]. cbn [fst]. intros [-> | ->].
  - rewrite rule_step_fire.
    + cbn [fst]. apply (rewrite_rule_on_bare [] []).
      apply (contains_here middle_eastern p c).
    + apply (contains_here middle_eastern p c).
  - rewrite rule_step_skip; [reflexivity|].
    destruct (contains middle_eastern (bare_done p c)) eqn:E; [|reflexivity].
    apply (contains_part [] middle eastern) in E.
    now rewrite bare_done_free in E.
Qed.

Hypothesis Hpair : startswith (str " & Mediterranean") c = false.

Lemma cuisine_rules_settle (st : progress) :
  settled p c (fst st) ->
  fst (fold_left (rule_step ReplacedMiddleEastern)
         (tl middle_eastern_replacements) st) = bare_done p c.
Proof.
  intros H0. cbn [middle_eastern_replacements tl fold_left].
  pose proof (rewrite_rule_settled ReplacedMiddleEastern []
                (str " Cuisine") st H0) as H1.
  pose proof (rewrite_rule_settled ReplacedMiddleEastern []
                (str " Food") _ H1) as H2.
  pose proof (other_rule_settled ReplacedMiddleEastern
                (str ",Eastern,Restaurant") (str "Halal,Restaurant")
                _ ltac:(intros t'; discriminate) H2) as H3.
  pose proof (other_rule_settled ReplacedMiddleEastern
                (str ",Eastern,Food") (str "Halal,Food")
                _ ltac:(intros t'; discriminate) H3) as H4.
  assert (H5 : forall t',
             eastern ++ c <> str " Eastern & Mediterranean" ++ t').
  { intros t' E.
    change (str " Eastern & Mediterranean" ++ t')
      with (eastern ++ str " & Mediterranean" ++ t') in E.
    apply app_inv_head in E.
    rewrite E, startswith_app in Hpair. discriminate. }
  pose proof (other_rule_settled ReplacedMiddleEastern _ halal _ H5 H4) as H6.
  pose proof (rewrite_rule_settled ReplacedMiddleEastern (str "authentic ")
                [] _ H6) as H7.
  exact (last_rule_done ReplacedMiddleEastern _ H7).
Qed.

End OneBareTerm.

(** ** The shipping phrase at one place *)

Lemma contains_app_parts (K s1 s2 : text) :
  contains K (s1 ++ s2) = false ->
  contains K s1 = false /\ contains K s2 = false.
Proof.
  intros H. split.
  - destruct (contains K s1) eqn:E; [|reflexivity].
    apply contains_spec in E as [l [r ->]].
    now rewrite <- !app_assoc, contains_here in H.
  - destruct (contains K s2) eqn:E; [|reflexivity].
    apply contains_spec in E as [l [r ->]].
    now rewrite app_assoc, contains_here in H.
Qed.

Section OneShippingPhrase.

Variables pre post : text.
Hypothesis Hfree : contains nationwide_shipping (pre ++ post) = false.

Lemma phrase_sole (v : dash_variant) :
  sole nationwide_shipping (pre ++ dash_prefix v) post.
Proof.
  destruct (contains_app_parts _ _ _ Hfree) as [Hpre Hpost].
  apply sole_site; [discriminate | | |].
  - destruct v; cbn [dash_prefix];
      [| | | now rewrite app_nil_r];
      (apply contains_app_false;
       [exact Hpre
       | apply crossing_first_char; vm_compute; reflexivity
       | vm_compute; reflexivity]).
  - change (nationwide_shipping ++ post)
      with (78%N :: (tl nationwide_shipping ++ post)).
    apply crossing_first_char. vm_compute. reflexivity.
  - change (tl (nationwide_shipping ++ post))
      with (str "ationwide Shipping" ++ post).
    apply contains_app_false; [vm_compute; reflexivity | | exact Hpost].
    vm_compute. reflexivity.
Qed.

Lemma phrase_removed (cat : category) (v : dash_variant)
  (ch : list category) :
  rule_step cat (pre ++ shipping_phrase v ++ post, ch) (shipping_phrase v, [])
  = (pre ++ post, ch ++ [cat]).
Proof.
  rewrite rule_step_fire by apply contains_here. f_equal.
  rewrite replace_nonempty by (destruct v; discriminate).
  apply (replace_from_sole nationwide_shipping (dash_prefix v) [] [] pre post).
  - discriminate.
  - apply phrase_sole.
Qed.

Lemma phrase_gone (cat : category) (k : dash_variant) (ch : list category) :
  rule_step cat (pre ++ post, ch) (shipping_phrase k, [])
  = (pre ++ post, ch).
Proof.
  apply rule_step_skip.
  destruct (contains (shipping_phrase k) (pre ++ post)) eqn:E; [|reflexivity].
  apply (contains_part (dash_prefix k) nationwide_shipping []) in E.
  now rewrite Hfree in E.
Qed.

(** A variant earlier in the list does not match where another dash, or
    none, stands before the phrase. *)
Lemma other_dash_skipped (cat : category) (k v : dash_variant)
  (ch : list category) :
  (forall l, pre ++ dash_prefix v <> l ++ dash_prefix k) ->
  rule_step cat (pre ++ shipping_phrase v ++ post, ch) (shipping_phrase k, [])
  = (pre ++ shipping_phrase v ++ post, ch).
Proof.
  intros Hk. apply rule_step_skip.
  destruct (contains (shipping_phrase k) (pre ++ shipping_phrase v ++ post))
    eqn:E; [exfalso | reflexivity].
  unfold shipping_phrase in E.
  replace (pre ++ (dash_prefix v ++ nationwide_shipping) ++ post)
    with ((pre ++ dash_prefix v) ++ nationwide_shipping ++ post) in E
    by (rewrite <- !app_assoc; reflexivity).
  destruct (contains_sole nationwide_shipping (dash_prefix k) []
              (pre ++ dash_prefix v) post (phrase_sole v) E)
    as [l [_ [El _]]].
  exact (Hk l El).
Qed.

Lemma dash_differs (x y : char) (l : text) :
  x <> y -> pre ++ [x; 32%N] <> l ++ [y; 32%N].
Proof.
  intros Hxy E.
  change (pre ++ [x; 32%N]) with (pre ++ [x] ++ [32%N]) in E.
  change (l ++ [y; 32%N]) with (l ++ [y] ++ [32%N]) in E.
  rewrite !app_assoc in E.
  apply app_inj_tail in E as [E _]. apply app_inj_tail in E as [_ E].
  contradiction.
Qed.

Lemma no_dash_differs (k : dash_variant) (l : text) :
  dash_before pre = false -> k <> NoDash ->
  pre ++ dash_prefix NoDash <> l ++ dash_prefix k.
Proof.
  intros Hd Hk E. simpl in E. rewrite app_nil_r in E.
  unfold dash_before in Hd.
  apply orb_false_iff in Hd as [Hd H3]. apply orb_false_iff in Hd as [H1 H2].
  assert (endswith (dash_prefix k) pre = true) as F
      by (apply endswith_spec; now exists l).
  destruct k; congruence.
Qed.

Lemma nationwide_variant_removed (v : dash_variant) :
  (v = NoDash -> dash_before pre = false) ->
  remove_nationwide (pre ++ shipping_phrase v ++ post, [])
  = (pre ++ post, [RemovedNationwide]).
Proof.
  intros Hv. unfold remove_nationwide, rule_loop.
  change (map (fun pattern : text => (pattern, [])) patterns_nationwide)
    with [ (shipping_phrase EmDash, @nil char);
           (shipping_phrase EnDash, @nil char);
           (shipping_phrase Hyphen, @nil char);
           (shipping_phrase NoDash, @nil char) ].
  cbn [fold_left].
  destruct v.
  - rewrite phrase_removed, !phrase_gone. reflexivity.
  - rewrite other_dash_skipped
      by (intros l; apply dash_differs; discriminate).
    rewrite phrase_removed, !phrase_gone. reflexivity.
  - rewrite !other_dash_skipped
      by (intros l; apply dash_differs; discriminate).
    rewrite phrase_removed, !phrase_gone. reflexivity.
  - rewrite !other_dash_skipped
      by (intros l; apply no_dash_differs; [now apply Hv | discriminate]).
    rewrite phrase_removed. reflexivity.
Qed.

Lemma nationwide_nothing_to_remove (ch : list category) :
  remove_nationwide (pre ++ post, ch) = (pre ++ post, ch).
Proof.
  unfold remove_nationwide, rule_loop.
  change (map (fun pattern : text => (pattern, [])) patterns_nationwide)
    with [ (shipping_phrase EmDash, @nil char);
           (shipping_phrase EnDash, @nil char);
           (shipping_phrase Hyphen, @nil char);
           (shipping_phrase NoDash, @nil char) ].
  cbn [fold_left]. now rewrite !phrase_gone.
Qed.

End OneShippingPhrase.

(** ** Counting occurrences *)

Lemma count_app_ge (pat l s : text) : count pat s <= count pat (l ++ s).
Proof.
  induction l as [|c l IH]; [apply le_n|].
  change ((c :: l) ++ s) with (c :: (l ++ s)). cbn [count]. lia.
Qed.

Lemma count_here (pat l r : text) : 1 <= count pat (l ++ pat ++ r).
Proof.
  eapply Nat.le_trans; [|apply count_app_ge].
  destruct (pat ++ r) eqn:E; cbn [count]; rewrite <- E, startswith_app; lia.
Qed.

Lemma count_two (pat l1 r1 l2 r2 : text) :
  l1 ++ pat ++ r1 = l2 ++ pat ++ r2 ->
  List.length l1 < List.length l2 ->
  2 <= count pat (l1 ++ pat ++ r1).
Proof.
  revert l2; induction l1 as [|c l1 IH]; intros [|d l2] E Hlen;
    simpl in Hlen; try lia.
  - pose proof (startswith_app pat r1) as S.
    change ([] ++ pat ++ r1) with (pat ++ r1) in *. rewrite E in S |- *.
    change ((d :: l2) ++ pat ++ r2) with (d :: (l2 ++ pat ++ r2)) in *.
    cbn [count]. rewrite S.
    pose proof (count_here pat l2 r2). lia.
  - injection E as _ E. apply Nat.succ_lt_mono in Hlen.
    specialize (IH l2 E Hlen).
    change ((c :: l1) ++ pat ++ r1) with (c :: (l1 ++ pat ++ r1)).
    cbn [count]. lia.
Qed.

Lemma app_same_length (a b c d : text) :
  a ++ b = c ++ d -> List.length a = List.length c -> a = c.
Proof.
  revert c; induction a as [|x a IH]; intros [|y c] E Hlen;
    simpl in Hlen; try lia; [reflexivity|].
  injection E as -> E. injection Hlen as Hlen. f_equal. now apply IH.
Qed.

(** A pattern counted once has one place. *)
Lemma count_one_unique (pat pre post l r : text) :
  count pat (pre ++ pat ++ post) = 1 ->
  pre ++ pat ++ post = l ++ pat ++ r -> l = pre.
Proof.
  intros Hc E.
  destruct (Nat.lt_trichotomy (List.length pre) (List.length l))
    as [Hlt | [Heq | Hgt]].
  - pose proof (count_two pat pre post l r E Hlt). lia.
  - symmetry. now apply (app_same_length _ _ _ _ E).
  - pose proof (count_two pat l r pre post (eq_sym E) Hgt) as H2.
    rewrite <- E in H2. lia.
Qed.

(** ** One region list *)

Ltac length_clash H :=
  apply (f_equal (@List.length char)) in H;
  repeat rewrite length_app in H; unfold ny_nj_ga in H; simpl in H; lia.

Section OneRegionList.

Variables pre tail post : text.

Hypothesis Hcount : count ny_nj_ga (pre ++ ny_nj_ga ++ tail ++ post) = 1.
Hypothesis Hsplice :
  endswith (str "NY, ") pre && startswith (str ", GA") post = false.

Lemma site_unique (l r : text) :
  pre ++ ny_nj_ga ++ tail ++ post = l ++ ny_nj_ga ++ r -> l = pre.
Proof. now apply count_one_unique. Qed.

(** Once the list is replaced, no [NY, NJ, GA] is left. *)
Lemma no_core_after : contains ny_nj_ga (pre ++ nj ++ post) = false.
Proof.
  destruct (contains ny_nj_ga (pre ++ nj ++ post)) eqn:E; [exfalso|reflexivity].
  apply contains_spec in E as [l [r E]].
  apply app_eq_app in E as [k [[Hl Hr] | [Hl Hr]]].
  - destruct k as [|k0 [|k1 [|k2 [|k3 [|k4 [|k5 [|k6 [|k7 [|k8 [|k9 k]]]]]]]]]];
      unfold ny_nj_ga, nj in Hr; simpl in Hr; try discriminate Hr.
    + injection Hr as <- <- <- <- Hr.
      rewrite (proj2 (endswith_spec (str "NY, ") pre)) in Hsplice
        by (exists l; exact Hl).
      rewrite (proj2 (startswith_spec (str ", GA") post)) in Hsplice
        by (exists r; symmetry; exact Hr).
      discriminate.
    + injection Hr as <- <- <- <- <- <- <- <- <- <- Hr.
      assert (l = pre) as F.
      { apply (site_unique l (k ++ ny_nj_ga ++ tail ++ post)).
        rewrite Hl, <- !app_assoc. reflexivity. }
      rewrite F in Hl. length_clash Hl.
  - destruct k as [|k0 [|k1 k]]; unfold ny_nj_ga, nj in Hr; simpl in Hr;
      try discriminate Hr.
    injection Hr as <- <- Hr.
    assert (pre ++ ny_nj_ga ++ tail ++ k = pre) as F.
    { apply (site_unique _ r). rewrite Hr, <- !app_assoc. reflexivity. }
    length_clash F.
Qed.

Lemma region_rule_fires (cat : category) (ch : list category) :
  rule_step cat (pre ++ ny_nj_ga ++ tail ++ post, ch) (ny_nj_ga ++ tail, nj)
  = (pre ++ nj ++ post, ch ++ [cat]).
Proof.
  replace (pre ++ ny_nj_ga ++ tail ++ post)
    with (pre ++ (ny_nj_ga ++ tail) ++ post)
    by (rewrite <- !app_assoc; reflexivity).
  rewrite rule_step_fire by apply contains_here. f_equal.
  rewrite replace_nonempty by discriminate.
  apply replace_from_unique; [discriminate|].
  intros l r E. apply (site_unique l (tail ++ r)).
  rewrite <- !app_assoc in E. exact E.
Qed.

Lemma other_region_rule_skips (cat : category) (ch : list category)
  (tail' new : text) :
  (forall r, tail ++ post <> tail' ++ r) ->
  rule_step cat (pre ++ ny_nj_ga ++ tail ++ post, ch) (ny_nj_ga ++ tail', new)
  = (pre ++ ny_nj_ga ++ tail ++ post, ch).
Proof.
  intros Ht. apply rule_step_skip.
  destruct (contains (ny_nj_ga ++ tail') (pre ++ ny_nj_ga ++ tail ++ post))
    eqn:E; [exfalso|reflexivity].
  apply contains_spec in E as [l [r E]]. rewrite <- app_assoc in E.
  pose proof (site_unique _ _ E) as ->.
  apply app_inv_head in E. apply app_inv_head in E.
  exact (Ht r E).
Qed.

Lemma region_rule_done (cat : category) (ch : list category) (u v new : text) :
  rule_step cat (pre ++ nj ++ post, ch) (u ++ ny_nj_ga ++ v, new)
  = (pre ++ nj ++ post, ch).
Proof.
  apply rule_step_skip.
  destruct (contains (u ++ ny_nj_ga ++ v) (pre ++ nj ++ post)) eqn:E;
    [|reflexivity].
  apply contains_part in E. now rewrite no_core_after in E.
Qed.

End OneRegionList.

Lemma lone_region_list_replaced (pre tail post : text) :
  count ny_nj_ga (pre ++ ny_nj_ga ++ tail ++ post) = 1 ->
  endswith (str "NY, ") pre && startswith (str ", GA") post = false ->
  In tail state_tails ->
  (tail = [] -> longer_variant_follows post = false) ->
  replace_states (pre ++ ny_nj_ga ++ tail ++ post, [])
  = (pre ++ nj ++ post, [ReplacedStates]).
Proof.
  intros Hcount Hsplice Hin Hlong. unfold replace_states, rule_loop.
  change state_replacements with
    [ (ny_nj_ga ++ str ", & CT", nj);
      (ny_nj_ga ++ str " & CT", nj);
      (ny_nj_ga ++ str ", CT", nj);
      (ny_nj_ga ++ [], nj);
      (str "in " ++ ny_nj_ga ++ str ", & CT", str "in NJ");
      (str "in " ++ ny_nj_ga ++ str " & CT", str "in NJ");
      (str "in " ++ ny_nj_ga ++ str ", CT", str "in NJ");
      (str "in " ++ ny_nj_ga ++ [], str "in NJ") ].
  cbn [fold_left].
  pose proof (region_rule_done pre tail post Hcount Hsplice) as Done.
  pose proof (fun cat ch => Done cat ch []) as Done0.
  cbn [app] in Done0.
  destruct Hin as [<- | [<- | [<- | [<- | []]]]].
  - rewrite region_rule_fires by assumption.
    rewrite !Done0, !Done. reflexivity.
  - rewrite other_region_rule_skips
      by (assumption || (intros r; discriminate)).
    rewrite region_rule_fires by assumption.
    rewrite !Done0, !Done. reflexivity.
  - rewrite !other_region_rule_skips
      by (assumption || (intros r; discriminate)).
    rewrite region_rule_fires by assumption.
    rewrite !Done0, !Done. reflexivity.
  - specialize (Hlong eq_refl). unfold longer_variant_follows in Hlong.
    apply orb_false_iff in Hlong as [Hlong H3].
    apply orb_false_iff in Hlong as [H1 H2].
    assert (forall t, startswith t post = false ->
                      forall r, [] ++ post <> t ++ r) as Skip.
    { intros t Ht r E. rewrite (proj2 (startswith_spec t post)) in Ht;
        [discriminate | now exists r]. }
    rewrite !other_region_rule_skips by (assumption || now apply Skip).
    rewrite region_rule_fires by assumption.
    rewrite !Done. reflexivity.
Qed.

(** ** Text without targets *)

Lemma re_sub_absent (r : regex) (s : text) :
  re_search r s = false -> re_sub r s = s.
Proof.
  unfold re_sub. induction s as [|c s IH]; intros H; [reflexivity|].
  cbn [re_search] in H. cbn [re_sub_from].
  destruct (re_match r (c :: s)); [discriminate|].
  now rewrite IH.
Qed.

Lemma replace_absent (old new s : text) :
  old <> [] -> contains old s = false -> replace old new s = s.
Proof.
  intros Hne H. rewrite replace_nonempty by assumption.
  now apply replace_from_absent.
Qed.

Lemma existsb_false {A : Type} (f : A -> bool) (l : list A) (x : A) :
  existsb f l = false -> In x l -> f x = false.
Proof.
  intros H Hx. destruct (f x) eqn:E; [|reflexivity].
  rewrite <- H. symmetry. apply existsb_exists. now exists x.
Qed.

Lemma existsb_through_map {A B : Type} (f : B -> bool) (g : A -> B)
  (l : list A) :
  existsb f (map g l) = existsb (fun x => f (g x)) l.
Proof.
  induction l as [|x l IH]; [reflexivity|]. cbn. now rewrite IH.
Qed.

Lemma rule_loop_idle (cat : category) (rules : list (text * text))
  (st : progress) :
  existsb (fun old => contains old (fst st)) (map fst rules) = false ->
  rule_loop cat rules st = st.
Proof.
  unfold rule_loop. destruct st as [s ch]. cbn [fst].
  induction rules as [|[old new] rules IH]; intros H; [reflexivity|].
  cbn [map fst existsb] in H. apply orb_false_iff in H as [H1 H2].
  cbn [fold_left]. rewrite rule_step_skip by assumption. now apply IH.
Qed.

Lemma fix_content_clean (s : text) :
  has_target s = false -> fix_content s = (s, []).
Proof.
  unfold has_target, literal_targets, pattern_targets. intros H.
  apply orb_false_iff in H as [Hl Hp].
  rewrite !existsb_app in Hl.
  apply orb_false_iff in Hl as [Hn Hl].
  apply orb_false_iff in Hl as [Hs Hl].
  apply orb_false_iff in Hl as [Hm Hh].
  cbn [existsb] in Hh, Hp.
  repeat match goal with
         | H : _ || _ = false |- _ => apply orb_false_iff in H as [? H]
         end.
  unfold fix_content, remove_nationwide.
  rewrite rule_loop_idle
    by (cbn [fst]; rewrite map_map; cbn [fst]; now rewrite map_id).
  unfold replace_states. rewrite rule_loop_idle by assumption.
  unfold replace_middle_eastern. rewrite rule_loop_idle by assumption.
  cbn [fst snd]. unfold markup_rules.
  rewrite (re_sub_absent link_re s) by assumption.
  rewrite (re_sub_absent li_link_re s) by assumption.
  rewrite (re_sub_absent heading_re s) by assumption.
  rewrite (replace_absent now_shipping_hot_sauce _ s)
    by (assumption || discriminate).
  rewrite (replace_absent shipping_hot_sauce _ s)
    by (assumption || discriminate).
  now rewrite (re_sub_absent option_re s) by assumption.
Qed.

(** ** What a rule loop appends to [changes] *)

Lemma rule_loop_changes (cat x : category) (rules : list (text * text))
  (s : text) (ch : list category) :
  In x (snd (rule_loop cat rules (s, ch))) <->
  In x ch \/
  (x = cat /\ existsb (fun rule => contains (fst rule) s) rules = true).
Proof.
  unfold rule_loop. revert s ch.
  induction rules as [|[old new] rules IH]; intros s ch; cbn [fold_left].
  - cbn. intuition discriminate.
  - cbn [existsb fst]. destruct (contains old s) eqn:E.
    + rewrite rule_step_fire by assumption. rewrite IH, in_app_iff.
      cbn. intuition.
    + rewrite rule_step_skip by assumption. rewrite IH.
      cbn. intuition.
Qed.

Lemma fix_content_changes (original : text) (x : category) :
  In x (snd (fix_content original)) <-> fired x original = true.
Proof.
  unfold fix_content. cbn [snd].
  unfold replace_middle_eastern, replace_states.
  destruct (remove_nationwide (original, [])) as [s1 ch1] eqn:E1.
  destruct (rule_loop ReplacedStates state_replacements (s1, ch1))
    as [s2 ch2] eqn:E2.
  rewrite rule_loop_changes.
  assert (In x ch2 <->
          In x ch1 \/ (x = ReplacedStates /\
            existsb (fun rule => contains (fst rule) s1) state_replacements
            = true)) as H2.
  { rewrite <- rule_loop_changes. now rewrite E2. }
  assert (In x ch1 <->
          (x = RemovedNationwide /\
            existsb (fun old => contains old original) patterns_nationwide
            = true)) as H1.
  { change ch1 with (snd (s1, ch1)). rewrite <- E1.
    unfold remove_nationwide. rewrite rule_loop_changes.
    cbn [In]. rewrite existsb_through_map. cbn [fst]. intuition. }
  assert (s2 = fst (replace_states (remove_nationwide (original, []))))
    as ->.
  { unfold replace_states. now rewrite E1, E2. }
  rewrite H2, H1. change s1 with (fst (s1, ch1)). rewrite <- E1.
  destruct x; cbn [fired]; intuition congruence.
Qed.

(** ** Every rule makes the text shorter *)

Lemma startswith_length (pat s : text) :
  startswith pat s = true -> List.length pat <= List.length s.
Proof.
  intros H. apply startswith_spec in H as [r ->]. rewrite length_app. lia.
Qed.

Lemma replace_from_length (old new : text) :
  List.length new <= List.length old ->
  forall s skip,
    List.length (replace_from old new skip s) + Nat.min skip (List.length s)
    <= List.length s.
Proof.
  intros Hlen. induction s as [|c s IH]; intros skip; [cbn; lia|].
  cbn [replace_from]. destruct skip as [|k].
  - destruct (startswith old (c :: s)) eqn:E.
    + apply startswith_length in E. cbn [List.length] in E |- *.
      specialize (IH (pred (List.length old))). rewrite length_app. lia.
    + specialize (IH 0). cbn [List.length]. lia.
  - specialize (IH k). cbn [List.length]. lia.
Qed.

Lemma replace_from_shorter (old new s : text) :
  List.length new < List.length old ->
  contains old s = true ->
  List.length (replace_from old new 0 s) < List.length s.
Proof.
  intros Hlen. induction s as [|c s IH]; intros H.
  - cbn in H. rewrite orb_false_r in H. apply startswith_length in H.
    cbn in H. lia.
  - cbn [replace_from]. destruct (startswith old (c :: s)) eqn:E.
    + apply startswith_length in E. cbn [List.length] in E |- *.
      pose proof (replace_from_length old new ltac:(lia) s
                    (pred (List.length old))).
      rewrite length_app. lia.
    + cbn [contains] in H. rewrite E in H. cbn in H.
      specialize (IH H). cbn [List.length]. lia.
Qed.

Lemma star_greedy_bounded (f : char -> bool) (k : text -> option text) :
  bounded k -> bounded (star_greedy f k).
Proof.
  intros Hk t. induction t as [|c t IH]; intros v H; cbn in H.
  - now apply Hk.
  - destruct (f c); [|now apply Hk].
    destruct (star_greedy f k t) as [u|] eqn:E; [|now apply Hk].
    injection H as <-. specialize (IH u eq_refl). cbn. lia.
Qed.

Lemma star_greedy_shrinking (f : char -> bool) (k : text -> option text) :
  shrinking k -> shrinking (star_greedy f k).
Proof.
  intros Hk t. induction t as [|c t IH]; intros v H; cbn in H.
  - now apply Hk.
  - destruct (f c); [|now apply Hk].
    destruct (star_greedy f k t) as [u|] eqn:E; [|now apply Hk].
    injection H as <-. specialize (IH u eq_refl). cbn. lia.
Qed.

Lemma rmatch_bounded (r : regex) (k : text -> option text) :
  bounded k -> bounded (rmatch r k).
Proof.
  revert k; induction r as [|p|f|f|r1 IH1 r2 IH2|r1 IH1 r2 IH2];
    intros k Hk; cbn [rmatch].
  - exact Hk.
  - intros [|c t] v H; [discriminate|].
    destruct (lit_match p c); [|discriminate].
    apply Hk in H. cbn. lia.
  - intros [|c t] v H; [discriminate|].
    destruct (f c); [|discriminate].
    apply Hk in H. cbn. lia.
  - now apply star_greedy_bounded.
  - apply IH1. now apply IH2.
  - intros t v H. destruct (rmatch r1 k t) as [u|] eqn:E.
    + injection H as <-. now apply (IH1 k Hk t).
    + now apply (IH2 k Hk t).
Qed.

Lemma rmatch_shrinking (r : regex) (k : text -> option text) :
  shrinking k -> shrinking (rmatch r k).
Proof.
  revert k; induction r as [|p|f|f|r1 IH1 r2 IH2|r1 IH1 r2 IH2];
    intros k Hk; cbn [rmatch].
  - exact Hk.
  - intros [|c t] v H; [discriminate|].
    destruct (lit_match p c); [|discriminate].
    apply Hk in H. cbn. lia.
  - intros [|c t] v H; [discriminate|].
    destruct (f c); [|discriminate].
    apply Hk in H. cbn. lia.
  - now apply star_greedy_shrinking.
  - apply IH1. now apply IH2.
  - intros t v H. destruct (rmatch r1 k t) as [u|] eqn:E.
    + injection H as <-. now apply (IH1 k Hk t).
    + now apply (IH2 k Hk t).
Qed.

(** A pattern that cannot match the empty text takes at least one
    character. *)
Lemma rmatch_consumes (r : regex) (k : text -> option text) :
  consumes r = true -> bounded k -> shrinking (rmatch r k).
Proof.
  revert k; induction r as [|p|f|f|r1 IH1 r2 IH2|r1 IH1 r2 IH2];
    intros k Hc Hk; cbn [rmatch]; cbn [consumes] in Hc; try discriminate.
  - intros [|c t] v H; [discriminate|].
    destruct (lit_match p c); [|discriminate].
    apply Hk in H. cbn. lia.
  - intros [|c t] v H; [discriminate|].
    destruct (f c); [|discriminate].
    apply Hk in H. cbn. lia.
  - destruct (consumes r1) eqn:C1.
    + apply IH1; [reflexivity|]. now apply rmatch_bounded.
    + apply rmatch_shrinking. now apply IH2.
  - apply andb_true_iff in Hc as [C1 C2].
    intros t v H. destruct (rmatch r1 k t) as [u|] eqn:E.
    + injection H as <-. now apply (IH1 k C1 Hk t).
    + now apply (IH2 k C2 Hk t).
Qed.

Lemma re_match_consumes (r : regex) (s rest : text) :
  consumes r = true -> re_match r s = Some rest ->
  List.length rest < List.length s.
Proof.
  intros Hc H. apply (rmatch_consumes r (@Some text) Hc) in H; [exact H|].
  intros t v E. injection E as <-. apply le_n.
Qed.

Lemma re_sub_from_length (r : regex) (s : text) (skip : nat) :
  consumes r = true ->
  List.length (re_sub_from r skip s) + Nat.min skip (List.length s)
  <= List.length s.
Proof.
  intros Hc. revert skip. induction s as [|c s IH]; intros skip; [cbn; lia|].
  cbn [re_sub_from]. destruct skip as [|k].
  - destruct (re_match r (c :: s)) as [rest|] eqn:E.
    + apply (re_match_consumes r _ _ Hc) in E. cbn [List.length] in E |- *.
      destruct (S (List.length s) - List.length rest) as [|n] eqn:D; [lia|].
      specialize (IH n). lia.
    + specialize (IH 0). cbn [List.length]. lia.
  - specialize (IH k). cbn [List.length]. lia.
Qed.

Lemma re_sub_shorter (r : regex) (s : text) :
  consumes r = true -> re_search r s = true ->
  List.length (re_sub r s) < List.length s.
Proof.
  intros Hc. unfold re_sub. induction s as [|c s IH]; intros H.
  - cbn in H. destruct (re_match r []) as [rest|] eqn:E; [|discriminate].
    apply (re_match_consumes r _ _ Hc) in E. cbn in E. lia.
  - cbn [re_sub_from]. cbn [re_search] in H.
    destruct (re_match r (c :: s)) as [rest|] eqn:E.
    + apply (re_match_consumes r _ _ Hc) in E. cbn [List.length] in E |- *.
      destruct (S (List.length s) - List.length rest) as [|n] eqn:D; [lia|].
      pose proof (re_sub_from_length r s n Hc). lia.
    + specialize (IH H). cbn [List.length]. lia.
Qed.

Lemma stage_compose (t1 t2 : text -> bool) (f1 f2 : text -> text) :
  stage_ok t1 f1 -> stage_ok t2 f2 ->
  stage_ok (fun s => t1 s || t2 s) (fun s => f2 (f1 s)).
Proof.
  intros H1 H2 s.
  destruct (H1 s) as [L1 [I1 S1]]. destruct (H2 (f1 s)) as [L2 [I2 S2]].
  repeat split.
  - lia.
  - intros H. apply orb_false_iff in H as [A B].
    rewrite (I1 A) in *. now apply I2.
  - intros H. destruct (t1 s) eqn:A.
    + specialize (S1 eq_refl). lia.
    + cbn in H. rewrite (I1 eq_refl) in *. now apply S2.
Qed.

Lemma replace_stage (old new : text) :
  List.length new < List.length old ->
  stage_ok (contains old) (replace old new).
Proof.
  intros Hlen s.
  assert (old <> []) as Hne by (destruct old; [cbn in Hlen; lia | discriminate]).
  rewrite replace_nonempty by assumption. repeat split.
  - pose proof (replace_from_length old new ltac:(lia) s 0). lia.
  - apply replace_from_absent.
  - now apply replace_from_shorter.
Qed.

Lemma re_sub_stage (r : regex) :
  consumes r = true -> stage_ok (re_search r) (re_sub r).
Proof.
  intros Hc s. repeat split.
  - pose proof (re_sub_from_length r s 0 Hc). unfold re_sub. lia.
  - apply re_sub_absent.
  - now apply re_sub_shorter.
Qed.

Lemma rule_loop_stage (cat : category) (rules : list (text * text)) :
  forallb (fun rule => List.length (snd rule) <? List.length (fst rule))
    rules = true ->
  stage_ok (fun s => existsb (fun old => contains old s) (map fst rules))
    (fun s => fst (rule_loop cat rules (s, []))).
Proof.
  unfold rule_loop.
  induction rules as [|[old new] rules IH]; intros Hlen s.
  - cbn. repeat split; [lia | discriminate].
  - cbn [forallb fst snd] in Hlen. apply andb_true_iff in Hlen as [H1 Hlen].
    apply Nat.ltb_lt in H1. specialize (IH Hlen).
    destruct (replace_stage old new H1 s) as [L [I S]].
    cbn [fold_left map fst existsb].
    fold (rule_loop cat rules (rule_step cat (s, []) (old, new))).
    rewrite rule_loop_content. unfold rule_loop.
    destruct (contains old s) eqn:E.
    + rewrite rule_step_fire by assumption. cbn [fst orb].
      destruct (IH (replace old new s)) as [L2 _]. specialize (S eq_refl).
      repeat split; try lia; discriminate.
    + rewrite rule_step_skip by assumption. cbn [fst orb]. apply IH.
Qed.

Lemma fix_content_stage :
  stage_ok
    (fun s =>
       existsb (fun old => contains old s) patterns_nationwide
       || existsb (fun old => contains old s) (map fst state_replacements)
       || existsb (fun old => contains old s)
            (map fst middle_eastern_replacements)
       || re_search link_re s || re_search li_link_re s
       || re_search heading_re s
       || contains now_shipping_hot_sauce s || contains shipping_hot_sauce s
       || re_search option_re s)
    (fun s => fst (fix_content s)).
Proof.
  assert (stage_ok
            (fun s => existsb (fun old => contains old s) patterns_nationwide)
            (fun s => fst (remove_nationwide (s, [])))) as N.
  { intros s.
    destruct (rule_loop_stage RemovedNationwide
                (map (fun pattern => (pattern, [])) patterns_nationwide)
                eq_refl s) as [L [I S]].
    rewrite map_map in I, S. cbn [fst] in I, S. rewrite map_id in I, S.
    now repeat split. }
  pose proof (rule_loop_stage ReplacedStates state_replacements eq_refl)
    as St.
  pose proof (rule_loop_stage ReplacedMiddleEastern
                middle_eastern_replacements eq_refl) as Me.
  pose proof (stage_compose _ _ _ _
    (stage_compose _ _ _ _
      (stage_compose _ _ _ _
        (stage_compose _ _ _ _
          (stage_compose _ _ _ _
            (stage_compose _ _ _ _
              (stage_compose _ _ _ _ (stage_compose _ _ _ _ N St) Me)
              (re_sub_stage link_re eq_refl))
            (re_sub_stage li_link_re eq_refl))
          (re_sub_stage heading_re eq_refl))
        (replace_stage now_shipping_hot_sauce hot_sauce_available
           ltac:(vm_compute; lia)))
      (replace_stage shipping_hot_sauce hot_sauce_available
         ltac:(vm_compute; lia)))
    (re_sub_stage option_re eq_refl)) as All.
  intros s. specialize (All s). cbv beta in All.
  assert (fst (fix_content s)
          = re_sub option_re
              (replace shipping_hot_sauce hot_sauce_available
                 (replace now_shipping_hot_sauce hot_sauce_available
                    (re_sub heading_re
                       (re_sub li_link_re
                          (re_sub link_re
                             (fst (rule_loop ReplacedMiddleEastern
                                     middle_eastern_replacements
                                     (fst (rule_loop ReplacedStates
                                             state_replacements
                                             (fst (remove_nationwide (s, [])),
                                              [])), []))))))))) as ->.
  { unfold fix_content. cbv zeta. cbn [fst]. unfold markup_rules.
    unfold replace_middle_eastern, replace_states.
    rewrite rule_loop_content.
    now rewrite (rule_loop_content ReplacedStates). }
  exact All.
Qed.

(** The rules leave a text as it is exactly when it holds no target. *)
Lemma unchanged_iff_no_target (s : text) :
  fst (fix_content s) = s <-> has_target s = false.
Proof.
  split.
  - intros H. destruct (has_target s) eqn:E; [exfalso | reflexivity].
    destruct (fix_content_stage s) as [_ [_ S]].
    rewrite H in S. apply (Nat.lt_irrefl (List.length s)). apply S.
    unfold has_target, literal_targets, pattern_targets in E.
    rewrite !existsb_app in E.
    apply orb_true_iff in E as [E | E].
    + apply orb_true_iff in E as [E | E]; [now rewrite E|].
      apply orb_true_iff in E as [E | E];
        [now rewrite E, ?orb_true_r|].
      apply orb_true_iff in E as [E | E];
        [now rewrite E, ?orb_true_r|].
      cbn [existsb] in E. rewrite orb_false_r in E.
      apply orb_true_iff in E as [E | E]; now rewrite E, ?orb_true_r.
    + cbn [existsb] in E. rewrite orb_false_r in E.
      repeat (apply orb_true_iff in E as [E | E]);
        now rewrite E, ?orb_true_r.
  - intros H. now rewrite fix_content_clean.
Qed.

(** ** [fix_file] and the loop over the files *)

Lemma bind_ext {A B : Type} (m : action A) (k k' : A -> action B)
  (w : world) :
  (forall a w1, m w = (Ok a, w1) -> k a w1 = k' a w1) ->
  bind m k w = bind m k' w.
Proof.
  intros H. unfold bind. destruct (m w) as [[a|e] w1]; [|reflexivity].
  now apply H.
Qed.

Lemma read_text_world (p : path) (w : world) : snd (read_text p w) = w.
Proof.
  unfold read_text, bind, read_bytes, ret, raise.
  destruct (lookup p (files w)) as [f|]; [|reflexivity].
  destruct (f_readable f); [|reflexivity].
  destruct (utf8_decode Replace true (f_data f)) as [[s pending]|e];
    reflexivity.
Qed.

Lemma read_text_frame (p : path) (w w1 : world) (content : text) :
  files w1 = files w ->
  read_text p w = (Ok content, w) -> read_text p w1 = (Ok content, w1).
Proof.
  unfold read_text, bind, read_bytes, ret, raise. intros ->.
  destruct (lookup p (files w)) as [f|]; [|discriminate].
  destruct (f_readable f); [|discriminate].
  destruct (utf8_decode Replace true (f_data f)) as [[s pending]|e];
    [|discriminate].
  intros H. injection H as ->. reflexivity.
Qed.

Lemma fix_file_unchanged (p : path) (w : world) (content : text) :
  read_text p w = (Ok content, w) ->
  fst (fix_content content) = content ->
  fix_file p w = (Ok (false, []), w).
Proof.
  intros Hr Hc. unfold fix_file, try_except, fix_file_body, bind.
  rewrite Hr. destruct (fix_content content) as [c ch]. cbn [fst] in Hc.
  subst c. now rewrite text_eqb_refl.
Qed.

Lemma debug_block_frame (p : path) (w w1 : world) (r : result unit) :
  debug_block p w = (r, w1) -> files w1 = files w.
Proof.
  unfold debug_block.
  destruct (text_eqb (name p) (str "index.html")).
  - unfold read_sample, bind, read_bytes, ret, raise, print.
    destruct (lookup p (files w)) as [f|]; [|now intros [= _ <-]].
    destruct (f_readable f); [|now intros [= _ <-]].
    destruct (utf8_decode Strict false _) as [[s pending]|e];
      [|now intros [= _ <-]].
    destruct (500 <=? _); [now intros [= _ <-]|].
    destruct pending; now intros [= _ <-].
  - unfold ret. now intros [= _ <-].
Qed.

(** What the body of [fix_file] raises is printed, if the name of the
    file can be. *)
Lemma fix_file_catches (p : path) (w : world) :
  match fix_file_body p w with
  | (Ok r, w1) => fix_file p w = (Ok r, w1)
  | (Raise e, w1) =>
      fix_file p w
      = if encodable (full_path w1 p)
        then (Ok (false, []),
              mkworld (script_dir w1) (files w1) (clock w1)
                (console w1 ++ [ErrorLine p e; Traceback e]))
        else (Raise UnicodeEncodeError, w1)
  end.
Proof.
  unfold fix_file, try_except.
  destruct (fix_file_body p w) as [[r|e] w1]; [reflexivity|].
  unfold bind, print, print_exc, show, ret. cbn [printed_name].
  destruct (encodable (full_path w1 p)); [|reflexivity].
  cbn [script_dir files clock console]. now rewrite <- app_assoc.
Qed.

Lemma write_text_dir (p : path) (s : text) (w : world) :
  script_dir (snd (write_text p s w)) = script_dir w.
Proof.
  unfold write_text, bind, open_for_writing, write_bytes, raise.
  destruct (lookup p (files w)) as [f|].
  - destruct (f_writable f); [|reflexivity].
    destruct (utf8_encode s); [|reflexivity].
    cbn [files]. destruct (lookup p _); reflexivity.
  - destruct (utf8_encode s); [|reflexivity].
    cbn [files]. destruct (lookup p _); reflexivity.
Qed.

Lemma fix_file_body_dir (p : path) (w : world) :
  script_dir (snd (fix_file_body p w)) = script_dir w.
Proof.
  unfold fix_file_body, bind. pose proof (read_text_world p w) as R.
  destruct (read_text p w) as [[content|e] w0]; cbn [snd] in R; subst w0;
    [|reflexivity].
  destruct (fix_content content) as [c ch].
  destruct (negb (text_eqb c content)); [|reflexivity].
  pose proof (write_text_dir p c w) as W.
  destruct (write_text p c w) as [[u|e] w1]; exact W.
Qed.

(** [fix_file] returns when the name of the file can be printed. *)
Lemma fix_file_returns (p : path) (w : world) :
  encodable (full_path w p) = true ->
  exists r w1, fix_file p w = (Ok r, w1) /\ script_dir w1 = script_dir w.
Proof.
  intros Hp. pose proof (fix_file_catches p w) as H.
  pose proof (fix_file_body_dir p w) as D.
  destruct (fix_file_body p w) as [[r|e] w1]; cbn [snd] in D.
  - now exists r, w1.
  - unfold full_path in H, Hp. rewrite D, Hp in H.
    eexists _, _. split; [exact H | reflexivity].
Qed.

(** Reading with [errors='replace'] never fails on the bytes. *)
Lemma utf8_decode_replace_ok (bs : list byte) (skip : nat) :
  exists s pending, utf8_decode_from Replace true skip bs = Ok (s, pending).
Proof.
  revert skip; induction bs as [|b bs IH]; intros skip;
    [now exists [], []|].
  cbn [utf8_decode_from]. destruct skip as [|k]; [|apply IH].
  destruct (utf8_next (b :: bs)) as [c n|n|].
  - destruct (IH (pred n)) as [s [pending ->]]. now eexists _, _.
  - cbn [negb andb].
    destruct (IH (pred n)) as [s [pending ->]]. now eexists _, _.
  - now eexists _, _.
Qed.

Lemma encodable_app (a b : text) :
  encodable (a ++ b) = encodable a && encodable b.
Proof.
  unfold encodable. induction a as [|c a IH]; cbn [app utf8_encode].
  - now destruct (utf8_encode b).
  - destruct (utf8_encode_char c) as [x|e]; [|reflexivity].
    destruct (utf8_encode (a ++ b)); destruct (utf8_encode a);
      destruct (utf8_encode b); cbn in *; congruence.
Qed.

(** Without an [index.html] among the files, and with names that can
    be printed, the loop reaches its end. *)
Lemma batch_completes (html_files : list path) :
  (forall p, In p html_files ->
             text_eqb (name p) (str "index.html") = false) ->
  (forall p, In p html_files -> encodable p = true) ->
  forall n w,
    encodable (script_dir w) = true ->
    exists m w1, process_files html_files n w = (Ok m, w1).
Proof.
  induction html_files as [|p rest IH]; intros Hn He n w Hd.
  - now exists n, w.
  - cbn [process_files]. unfold debug_block.
    rewrite (Hn p (or_introl eq_refl)).
    unfold bind at 1. unfold ret at 1. unfold bind at 1.
    assert (encodable (full_path w p) = true) as Hp.
    { unfold full_path.
      change (script_dir w ++ slash :: p)
        with (script_dir w ++ [slash] ++ p).
      rewrite !encodable_app, Hd, (He p (or_introl eq_refl)).
      reflexivity. }
    destruct (fix_file_returns p w Hp)
      as [[changed changes] [w1 [-> Hw1]]].
    assert (forall p, In p rest ->
                      text_eqb (name p) (str "index.html") = false) as Hrest
        by (intros q Hq; apply Hn; now right).
    assert (forall p, In p rest -> encodable p = true) as Erest
        by (intros q Hq; apply He; now right).
    rewrite <- Hw1 in Hd.
    destruct changed; [|now apply IH].
    unfold bind, print, show. cbn [printed_name].
    rewrite (He p (or_introl eq_refl)).
    destruct changes; cbn [ret printed_name encodable utf8_encode];
      now apply IH.
Qed.

(** ** The state rules on a listed variant *)

Lemma region_variant_replaced (pfx tail pre post : text) :
  In tail state_tails ->
  count ny_nj_ga (pre ++ (pfx ++ ny_nj_ga ++ tail) ++ post) = 1 ->
  (tail = [] -> longer_variant_follows post = false) ->
  contains (str "NY, NY, NJ, GA") (pre ++ (pfx ++ ny_nj_ga ++ tail) ++ post)
  = false ->
  replace_states (pre ++ (pfx ++ ny_nj_ga ++ tail) ++ post, [])
  = (pre ++ (pfx ++ nj) ++ post, [ReplacedStates]).
Proof.
  intros Hin Hcount Hlong Hsplice.
  replace (pre ++ (pfx ++ ny_nj_ga ++ tail) ++ post)
    with ((pre ++ pfx) ++ ny_nj_ga ++ tail ++ post) in *
    by (rewrite <- !app_assoc; reflexivity).
  replace (pre ++ (pfx ++ nj) ++ post) with ((pre ++ pfx) ++ nj ++ post)
    by (rewrite <- !app_assoc; reflexivity).
  apply lone_region_list_replaced; try assumption.
  destruct (endswith (str "NY, ") (pre ++ pfx)) eqn:E; [|reflexivity].
  apply endswith_spec in E as [l E]. rewrite E in Hsplice.
  rewrite <- app_assoc in Hsplice.
  change (str "NY, " ++ ny_nj_ga ++ tail ++ post)
    with (str "NY, NY, NJ, GA" ++ tail ++ post) in Hsplice.
  now rewrite contains_here in Hsplice.
Qed.

Lemma prefixed_rules_idle (st : progress) :
  contains ny_nj_ga (fst st) = false ->
  rule_loop ReplacedStates (skipn 4 state_replacements) st = st.
Proof.
  intros H. apply rule_loop_idle. apply not_true_iff_false. intros E.
  apply existsb_exists in E as [old [Hin E]].
  cbn [skipn state_replacements map fst In] in Hin.
  destruct Hin as [<- | [<- | [<- | [<- | []]]]].
  - apply (contains_part (str "in ") ny_nj_ga (str ", & CT")) in E.
    congruence.
  - apply (contains_part (str "in ") ny_nj_ga (str " & CT")) in E.
    congruence.
  - apply (contains_part (str "in ") ny_nj_ga (str ", CT")) in E.
    congruence.
  - apply (contains_part (str "in ") ny_nj_ga []) in E. congruence.
Qed.

(** ** Hot characters and what leads them *)

Lemma startswith_more (h s t : text) :
  startswith h s = true -> startswith h (s ++ t) = true.
Proof.
  rewrite !startswith_spec. intros [r ->]. exists (r ++ t).
  now rewrite app_assoc.
Qed.

(** A text that begins [w ++ x] either begins within [w] or goes on
    into [x]. *)
Lemma startswith_split (h w x : text) :
  startswith h (w ++ x) = true ->
  startswith h w = true \/
  (List.length w < List.length h /\
   startswith (skipn (List.length w) h) x = true).
Proof.
  revert w. induction h as [|p h IH]; intros w H; [now left|].
  destruct w as [|c w].
  - right. split; [cbn; lia | exact H].
  - cbn [app startswith] in H. apply andb_true_iff in H as [Hc H].
    destruct (IH w H) as [L | [L R]].
    + left. cbn [startswith]. now rewrite Hc, L.
    + right. split; [cbn; lia | exact R].
Qed.

Lemma startswith_agree (h o v : text) :
  startswith h (o ++ v) = true -> agree h o = true.
Proof.
  unfold agree. revert o. induction h as [|p h IH]; intros o H; [reflexivity|].
  destruct o as [|c o].
  - reflexivity.
  - cbn [app startswith] in H. apply andb_true_iff in H as [Hc H].
    specialize (IH o H). cbn [startswith]. rewrite Hc.
    apply N.eqb_eq in Hc. subst c. rewrite N.eqb_refl. exact IH.
Qed.

Section Led.

Variable hot : char.
Variable quiet : char -> bool.
Variable safe : text -> bool.

Hypothesis safe_more :
  forall s t, safe s = true -> safe (s ++ t) = true.
Hypothesis safe_cut :
  forall w c v t,
    quiet c = false -> safe (w ++ c :: v) = true -> safe (w ++ t) = true.

Lemma led_here_more (heads : list text) (s t : text) :
  led_here heads safe s = true -> led_here heads safe (s ++ t) = true.
Proof.
  unfold led_here. intros H. apply orb_true_iff in H as [H | H].
  - apply orb_true_iff. left. apply existsb_exists in H as [h [Hin Hh]].
    apply existsb_exists. exists h. split; [exact Hin|].
    now apply startswith_more.
  - apply orb_true_iff. right.
    destruct s as [|c s]; [discriminate|]. now apply safe_more.
Qed.

(** What leads a character before the pattern does not reach into the
    pattern. *)
Lemma led_here_cut (heads : list text) (old w v t : text) :
  w <> [] ->
  clear_of heads quiet old = true ->
  led_here heads safe (w ++ old ++ v) = true ->
  led_here heads safe (w ++ t) = true.
Proof.
  intros Hw Hc H. unfold clear_of in Hc.
  apply andb_true_iff in Hc as [Hf Hh].
  unfold led_here in *. apply orb_true_iff in H as [H | H].
  - apply orb_true_iff. left. apply existsb_exists in H as [h [Hin H]].
    apply existsb_exists. exists h. split; [exact Hin|].
    destruct (startswith_split h w (old ++ v) H) as [L | [L R]].
    + now apply startswith_more.
    + exfalso. apply startswith_agree in R.
      rewrite forallb_forall in Hh. specialize (Hh h Hin).
      rewrite forallb_forall in Hh.
      specialize (Hh (List.length w)).
      rewrite R in Hh. cbn in Hh.
      assert (In (List.length w) (List.seq 1 (pred (List.length h)))) as Hi.
      { apply in_seq. destruct w; [congruence|]. cbn in *. lia. }
      specialize (Hh Hi). discriminate.
  - apply orb_true_iff. right.
    destruct w as [|c w]; [congruence|].
    destruct old as [|g old]; [discriminate|].
    cbn [app] in *. apply negb_true_iff in Hf.
    exact (safe_cut w g (old ++ v) t Hf H).
Qed.

Lemma led_in_nil (heads : list text) (s : text) :
  led_in hot heads safe s [] = led hot heads safe s.
Proof.
  induction s as [|c s IH]; [reflexivity|].
  cbn [led_in led]. now rewrite IH, app_nil_r.
Qed.

Lemma led_in_app (heads : list text) (a b t : text) :
  led_in hot heads safe (a ++ b) t
  = led_in hot heads safe a (b ++ t) && led_in hot heads safe b t.
Proof.
  induction a as [|c a IH]; [reflexivity|].
  cbn [app led_in]. rewrite IH, <- app_assoc, andb_assoc. reflexivity.
Qed.

Lemma led_app (heads : list text) (a b : text) :
  led hot heads safe (a ++ b)
  = led_in hot heads safe a b && led hot heads safe b.
Proof.
  rewrite <- !led_in_nil, led_in_app, app_nil_r. reflexivity.
Qed.

Lemma led_in_more (heads : list text) (a t : text) :
  led hot heads safe a = true -> led_in hot heads safe a t = true.
Proof.
  induction a as [|c a IH]; [reflexivity|]. cbn [led led_in]. intros H.
  apply andb_true_iff in H as [H1 H2]. rewrite (IH H2), andb_true_r.
  apply orb_true_iff in H1 as [H1 | H1]; apply orb_true_iff;
    [now left | right].
  change (c :: a ++ t) with ((c :: a) ++ t). now apply led_here_more.
Qed.

Lemma led_in_cut (heads : list text) (old a u v t : text) :
  clear_of heads quiet old = true ->
  led_in hot heads safe a (u ++ old ++ v) = true ->
  led_in hot heads safe a (u ++ t) = true.
Proof.
  intros Hc. induction a as [|c a IH]; [reflexivity|]. cbn [led_in].
  intros H. apply andb_true_iff in H as [H1 H2].
  rewrite (IH H2), andb_true_r.
  apply orb_true_iff in H1 as [H1 | H1]; apply orb_true_iff;
    [now left | right].
  rewrite app_assoc in H1 |- *.
  apply (led_here_cut heads old _ v); [discriminate | exact Hc | exact H1].
Qed.

(** Where the pattern does not begin, a head that is the pattern leads
    nothing. *)
Lemma led_in_others (heads : list text) (old a rest : text) :
  (forall a1 w, a = a1 ++ w -> w <> [] ->
                startswith old (w ++ rest) = false) ->
  led_in hot heads safe a rest = true ->
  led_in hot (others old heads) safe a rest = true.
Proof.
  induction a as [|c a IH]; intros Hn H; [reflexivity|].
  cbn [led_in] in *. apply andb_true_iff in H as [H1 H2].
  rewrite IH; [| |exact H2].
  2:{ intros a1 w E Hw. apply (Hn (c :: a1) w); [now rewrite E | exact Hw]. }
  rewrite andb_true_r.
  apply orb_true_iff in H1 as [H1 | H1]; apply orb_true_iff;
    [now left | right].
  unfold led_here in *. apply orb_true_iff in H1 as [H1 | H1];
    apply orb_true_iff; [left | now right].
  apply existsb_exists in H1 as [h [Hin Hh]].
  apply existsb_exists. exists h. split; [|exact Hh].
  unfold others. apply filter_In. split; [exact Hin|].
  destruct (text_eqb h old) eqn:E; [exfalso | reflexivity].
  apply text_eqb_eq in E. subst h.
  specialize (Hn [] (c :: a) eq_refl). rewrite Hn in Hh; discriminate.
Qed.

Lemma first_occurrence (old s : text) :
  contains old s = true ->
  exists u v, s = u ++ old ++ v /\
    forall a1 w, u = a1 ++ w -> w <> [] ->
                 startswith old (w ++ old ++ v) = false.
Proof.
  induction s as [|c s IH]; intros H.
  - cbn in H. rewrite orb_false_r in H. apply startswith_spec in H as [r E].
    exists [], r. split; [exact E|]. intros a1 w E1 Hw.
    destruct a1; destruct w; try discriminate. congruence.
  - cbn [contains] in H. destruct (startswith old (c :: s)) eqn:E.
    + apply startswith_spec in E as [r E]. exists [], r.
      split; [exact E|]. intros a1 w E1 Hw.
      destruct a1; destruct w; try discriminate. congruence.
    + cbn in H. destruct (IH H) as [u [v [Es Hu]]].
      exists (c :: u), v. split; [now rewrite Es|].
      intros a1 w E1 Hw. destruct a1 as [|d a1].
      * cbn in E1. subst w. cbn [app]. rewrite <- Es. exact E.
      * injection E1 as _ E1. now apply (Hu a1 w).
Qed.

Lemma first_occurrence_length (old u v : text) :
  (forall a1 w, u = a1 ++ w -> w <> [] ->
                startswith old (w ++ old ++ v) = false) ->
  forall l r, u ++ old ++ v = l ++ old ++ r ->
              List.length u <= List.length l.
Proof.
  intros Hu l r E.
  destruct (Nat.le_gt_cases (List.length u) (List.length l)) as [L | L];
    [exact L | exfalso].
  apply app_eq_app in E as [k [[E1 E2] | [E1 E2]]].
  - destruct k as [|c k].
    + rewrite app_nil_r in E1. subst l. lia.
    + specialize (Hu l (c :: k) E1 ltac:(discriminate)).
      rewrite <- E2, startswith_app in Hu. discriminate.
  - subst l. rewrite length_app in L. lia.
Qed.

Section OneRule.

Variables old new : text.
Variable heads : list text.

Hypothesis Hclear : clear_of (others old heads) quiet old = true.
Hypothesis Hnew : led hot (others old heads) safe new = true.

Lemma old_nonempty : old <> [].
Proof.
  intros E. rewrite E in Hclear. discriminate.
Qed.

Lemma replace_from_led (n : nat) :
  forall s a,
    List.length s <= n ->
    led_in hot (others old heads) safe a s = true ->
    led hot heads safe s = true ->
    led hot (others old heads) safe (a ++ replace_from old new 0 s) = true.
Proof.
  induction n as [|n IH]; intros s a Hlen Ha Hs.
  - destruct s; [|cbn in Hlen; lia]. cbn. rewrite app_nil_r.
    rewrite <- led_in_nil. rewrite <- (app_nil_r a) at 1.
    rewrite led_in_app. cbn. now rewrite Ha.
  - destruct (contains old s) eqn:E.
    + destruct (first_occurrence old s E) as [u [v [Es Hu]]].
      subst s.
      rewrite replace_from_first;
        [| exact old_nonempty | now apply first_occurrence_length].
      rewrite led_app in Hs. apply andb_true_iff in Hs as [Hs1 Hs2].
      rewrite led_app in Hs2. apply andb_true_iff in Hs2 as [_ Hs3].
      replace (a ++ u ++ new ++ replace_from old new 0 v)
        with ((a ++ u ++ new) ++ replace_from old new 0 v)
        by (rewrite <- !app_assoc; reflexivity).
      apply IH; [|  | exact Hs3].
      * rewrite !length_app in Hlen.
        pose proof old_nonempty as Hne. destruct old; [congruence|].
        cbn in Hlen. lia.
      * rewrite !led_in_app, <- !app_assoc.
        apply andb_true_iff. split; [|apply andb_true_iff; split].
        { apply (led_in_cut _ old a u v); assumption. }
        { apply (led_in_cut _ old u [] v); [exact Hclear|].
          cbn [app]. apply led_in_others; assumption. }
        { now apply led_in_more. }
    + rewrite replace_from_absent by assumption.
      rewrite led_app. rewrite Ha. cbn.
      rewrite <- led_in_nil. apply led_in_others; [|now rewrite led_in_nil].
      intros a1 w Ea Hw. rewrite app_nil_r.
      destruct (startswith old w) eqn:S; [|reflexivity].
      apply startswith_spec in S as [r Er]. subst w s.
      now rewrite contains_here in E.
Qed.

Lemma replace_led (s : text) :
  led hot heads safe s = true ->
  led hot (others old heads) safe (replace_from old new 0 s) = true.
Proof.
  intros H.
  exact (replace_from_led (List.length s) s [] (le_n _) eq_refl H).
Qed.

Lemma rule_step_led (cat : category) (st : progress) :
  led hot heads safe (fst st) = true ->
  led hot (others old heads) safe (fst (rule_step cat st (old, new))) = true.
Proof.
  destruct st as [s ch]. cbn [fst]. intros H. unfold rule_step.
  destruct (contains old s) eqn:E; cbn [fst].
  - rewrite replace_nonempty by exact old_nonempty. now apply replace_led.
  - rewrite <- (replace_from_absent old new s E). now apply replace_led.
Qed.

End OneRule.

Lemma rule_loop_led (cat : category) (rules : list (text * text)) :
  forall (heads : list text) (st : progress),
    rules_clear hot quiet safe heads rules = true ->
    led hot heads safe (fst st) = true ->
    led hot (heads_after heads rules) safe (fst (rule_loop cat rules st))
    = true.
Proof.
  unfold rule_loop, heads_after.
  induction rules as [|[old new] rules IH]; intros heads st Hc Hs;
    [exact Hs|].
  cbn [rules_clear] in Hc. apply andb_true_iff in Hc as [Hc H3].
  apply andb_true_iff in Hc as [H1 H2].
  cbn [fold_left fst]. apply IH; [exact H3|].
  now apply rule_step_led.
Qed.

(** Where no head is left, what follows the hot character is admitted. *)
Lemma led_follow (s l follow : text) :
  led hot [] safe s = true -> s = l ++ hot :: follow -> safe follow = true.
Proof.
  intros H E. subst s. rewrite led_app in H.
  apply andb_true_iff in H as [_ H]. cbn [led] in H.
  apply andb_true_iff in H as [H _]. rewrite N.eqb_refl in H.
  exact H.
Qed.

Lemma led_no_mark (s m : text) :
  led hot [] safe s = true -> (forall t, safe (m ++ t) = false) ->
  contains (hot :: m) s = false.
Proof.
  intros H Hm. apply not_true_iff_false. intros E.
  apply contains_spec in E as [l [r E]].
  cbn [app] in E. pose proof (led_follow s l (m ++ r) H E) as F.
  rewrite Hm in F. discriminate.
Qed.

End Led.

(** ** What is admitted after a hot character *)

Lemma follows_more (quiet plain stop : char -> bool) (s t : text) :
  follows quiet plain stop s = true ->
  follows quiet plain stop (s ++ t) = true.
Proof.
  destruct s as [|f [|g s]]; cbn; try discriminate; [|trivial].
  rewrite orb_false_r. intros H. apply andb_true_iff in H as [-> ->].
  reflexivity.
Qed.

Lemma follows_cut (quiet plain stop : char -> bool) (w : text) (c : char)
  (v t : text) :
  quiet c = false ->
  follows quiet plain stop (w ++ c :: v) = true ->
  follows quiet plain stop (w ++ t) = true.
Proof.
  intros Hc. destruct w as [|f [|g w]]; cbn [app follows].
  - rewrite Hc. discriminate.
  - rewrite Hc. cbn. rewrite orb_false_r. intros H.
    apply andb_true_iff in H as [-> ->]. reflexivity.
  - trivial.
Qed.

(** ** The rule lists keep the text led *)

Lemma rules_clear_app (hot : char) (quiet : char -> bool)
  (safe : text -> bool) (r1 r2 : list (text * text)) :
  forall heads,
    rules_clear hot quiet safe heads (r1 ++ r2)
    = rules_clear hot quiet safe heads r1
      && rules_clear hot quiet safe (heads_after heads r1) r2.
Proof.
  induction r1 as [|[old new] r1 IH]; intros heads; [reflexivity|].
  cbn [app rules_clear]. rewrite IH, <- !andb_assoc. reflexivity.
Qed.

Lemma heads_after_app (heads : list text) (r1 r2 : list (text * text)) :
  heads_after heads (r1 ++ r2) = heads_after (heads_after heads r1) r2.
Proof. apply fold_left_app. Qed.

Lemma literal_rules_led (hot : char) (quiet plain stop : char -> bool)
  (heads : list text) (original : text) :
  rules_clear hot quiet (follows quiet plain stop) heads literal_rules
  = true ->
  led hot heads (follows quiet plain stop) original = true ->
  led hot (heads_after heads literal_rules) (follows quiet plain stop)
    (fst (replace_middle_eastern
            (replace_states (remove_nationwide (original, [])))))
  = true.
Proof.
  unfold literal_rules. intros Hc H.
  rewrite !rules_clear_app in Hc.
  apply andb_true_iff in Hc as [H1 Hc]. apply andb_true_iff in Hc as [H2 H3].
  rewrite !heads_after_app.
  unfold replace_middle_eastern, replace_states, remove_nationwide.
  pose proof (follows_more quiet plain stop) as Hm.
  pose proof (follows_cut quiet plain stop) as Hk.
  apply (rule_loop_led hot quiet _ Hm Hk); [exact H3|].
  apply (rule_loop_led hot quiet _ Hm Hk); [exact H2|].
  apply (rule_loop_led hot quiet _ Hm Hk); [exact H1 | exact H].
Qed.

(** ** A text that is led holds no target *)

Lemma contains_trans (a b c : text) :
  contains a b = true -> contains b c = true -> contains a c = true.
Proof.
  rewrite !contains_spec. intros [l [r ->]] [l' [r' ->]].
  exists (l' ++ l), (r ++ r'). now rewrite <- !app_assoc.
Qed.

Lemma lit_match_lt (c : char) : lit_match lt c = true -> c = lt.
Proof.
  unfold lit_match, sre_lower, is_in, lt. intros H.
  rewrite !orb_true_iff, !andb_true_iff, !N.eqb_eq in H.
  destruct (65 <=? c)%N eqn:E1; destruct (c <=? 90)%N eqn:E2; cbn in H;
    try apply N.leb_le in E1; try apply N.leb_le in E2;
    try (destruct (c =? 304)%N eqn:E3;
         [|destruct (c =? 8490)%N eqn:E4]);
    destruct H as [[H | [H _]] | [H _]]; try lia; try discriminate.
Qed.

Lemma re_match_tag (p : char) (r0 r1 : regex) (s rest : text) :
  re_match (Seq (Seq (Lit lt) (Seq (Lit p) r0)) r1) s = Some rest ->
  exists f s', s = lt :: f :: s' /\ lit_match p f = true.
Proof.
  unfold re_match. cbn [rmatch]. intros H.
  destruct s as [|c s]; [discriminate|].
  destruct (lit_match lt c) eqn:E; [|discriminate].
  apply lit_match_lt in E. subst c.
  destruct s as [|f s]; [discriminate|].
  destruct (lit_match p f) eqn:F; [|discriminate].
  now exists f, s.
Qed.

Lemma no_tag_no_match (p : char) (r0 r1 : regex) (s : text) :
  In p [97; 108; 104; 111]%N ->
  led lt [] after_lt s = true ->
  re_search (Seq (Seq (Lit lt) (Seq (Lit p) r0)) r1) s = false.
Proof.
  intros Hp. induction s as [|c s IH]; intros H.
  - cbn [re_search].
    destruct (re_match _ []) eqn:E; [|reflexivity].
    apply re_match_tag in E as [f [s' [E _]]]. discriminate.
  - cbn [re_search]. cbn [led] in H. apply andb_true_iff in H as [H1 H2].
    destruct (re_match _ (c :: s)) eqn:E; [exfalso | now apply IH].
    apply re_match_tag in E as [f [s' [E F]]]. injection E as -> ->.
    assert (opens_tag f = true) as T.
    { unfold opens_tag. apply existsb_exists. now exists p. }
    rewrite N.eqb_refl in H1. cbn [negb orb] in H1.
    unfold led_here in H1. cbn [existsb orb] in H1.
    unfold after_lt in H1. cbn [follows] in H1. rewrite T in H1.
    destruct s'; cbn [negb orb] in H1; rewrite ?andb_false_r in H1;
      discriminate.
Qed.

Lemma led_no_pattern (s : text) :
  led lt [] after_lt s = true ->
  existsb (fun r => re_search r s) pattern_targets = false.
Proof.
  intros H. unfold pattern_targets. cbn [existsb].
  rewrite (no_tag_no_match 97 _ _ s ltac:(cbn; tauto) H
           : re_search link_re s = false).
  rewrite (no_tag_no_match 108 _ _ s ltac:(cbn; tauto) H
           : re_search li_link_re s = false).
  rewrite (no_tag_no_match 104 _ _ s ltac:(cbn; tauto) H
           : re_search heading_re s = false).
  rewrite (no_tag_no_match 111 _ _ s ltac:(cbn; tauto) H
           : re_search option_re s = false).
  reflexivity.
Qed.

Lemma led_no_literal (s : text) :
  led capital_N [] after_N s = true ->
  led capital_M [] after_M s = true ->
  existsb (fun old => contains old s) literal_targets = false.
Proof.
  intros HN HM. apply not_true_iff_false. intros E.
  apply existsb_exists in E as [t [Hin E]].
  assert (forallb (fun t => contains (capital_N :: [97%N]) t
                            || contains (capital_N :: [capital_Y; comma]) t
                            || contains (capital_M :: [105%N]) t)
            literal_targets = true) as M by (vm_compute; reflexivity).
  rewrite forallb_forall in M. specialize (M t Hin).
  apply orb_true_iff in M as [M | M]; [apply orb_true_iff in M as [M | M]|].
  - pose proof (contains_trans _ _ _ M E) as C.
    pose proof (led_no_mark capital_N after_N s [97%N] HN
                  ltac:(intros t0; reflexivity)) as D.
    exact (diff_true_false (eq_trans (eq_sym C) D)).
  - pose proof (contains_trans _ _ _ M E) as C.
    pose proof (led_no_mark capital_N after_N s [capital_Y; comma] HN
                  ltac:(intros t0; reflexivity)) as D.
    exact (diff_true_false (eq_trans (eq_sym C) D)).
  - pose proof (contains_trans _ _ _ M E) as C.
    pose proof (led_no_mark capital_M after_M s [105%N] HM
                  ltac:(intros t0; reflexivity)) as D.
    exact (diff_true_false (eq_trans (eq_sym C) D)).
Qed.

Lemma led_no_target (s : text) :
  led capital_N [] after_N s = true ->
  led capital_M [] after_M s = true ->
  led lt [] after_lt s = true ->
  has_target s = false.
Proof.
  intros HN HM HL. unfold has_target.
  now rewrite led_no_literal, led_no_pattern.
Qed.

Lemma markup_rules_clean (s : text) :
  has_target s = false -> markup_rules s = s.
Proof.
  unfold has_target, literal_targets, pattern_targets. intros H.
  apply orb_false_iff in H as [Hl Hp].
  rewrite !existsb_app in Hl.
  apply orb_false_iff in Hl as [_ Hl].
  apply orb_false_iff in Hl as [_ Hl].
  apply orb_false_iff in Hl as [_ Hh].
  cbn [existsb] in Hh, Hp.
  repeat match goal with
         | H : _ || _ = false |- _ => apply orb_false_iff in H as [? H]
         end.
  unfold markup_rules.
  rewrite (re_sub_absent link_re s) by assumption.
  rewrite (re_sub_absent li_link_re s) by assumption.
  rewrite (re_sub_absent heading_re s) by assumption.
  rewrite (replace_absent now_shipping_hot_sauce _ s)
    by (assumption || discriminate).
  rewrite (replace_absent shipping_hot_sauce _ s)
    by (assumption || discriminate).
  now rewrite (re_sub_absent option_re s) by assumption.
Qed.

(** The output of the transform on a tidy text holds no target. *)
Lemma tidy_output_clean (original : text) :
  tidy original = true ->
  has_target (fst (fix_content original)) = false.
Proof.
  unfold tidy. intros H. apply andb_true_iff in H as [H HL].
  apply andb_true_iff in H as [HN HM].
  pose proof (fun C => literal_rules_led _ _ _ _ _ _ C HN) as PN.
  specialize (PN ltac:(vm_compute; reflexivity)).
  pose proof (fun C => literal_rules_led _ _ _ _ _ _ C HM) as PM.
  specialize (PM ltac:(vm_compute; reflexivity)).
  pose proof (fun C => literal_rules_led _ _ _ _ _ _ C HL) as PL.
  specialize (PL ltac:(vm_compute; reflexivity)).
  change (heads_after shipping_heads literal_rules) with (@nil text) in PN.
  change (heads_after cuisine_heads literal_rules) with (@nil text) in PM.
  change (heads_after [] literal_rules) with (@nil text) in PL.
  pose proof (led_no_target _ PN PM PL) as T.
  unfold fix_content. cbv zeta. cbn [fst].
  rewrite markup_rules_clean by exact T. exact T.
Qed.

(** ** The state rules on a text whose capital N are led *)

Lemma bare_rules_leave_no_list (original : text) :
  led capital_N [ny_nj_ga] after_N_states original = true ->
  contains ny_nj_ga
    (fst (replace_states_bare (remove_nationwide (original, [])))) = false.
Proof.
  intros H. unfold after_N_states in H.
  pose proof (follows_more quiet_for_states
                (fun f => negb (N.eqb f capital_Y)) (N.eqb comma)) as Hm.
  pose proof (follows_cut quiet_for_states
                (fun f => negb (N.eqb f capital_Y)) (N.eqb comma)) as Hk.
  pose proof (rule_loop_led capital_N quiet_for_states _ Hm Hk
                RemovedNationwide
                (map (fun pattern => (pattern, [])) patterns_nationwide)
                [ny_nj_ga] (original, [])
                ltac:(vm_compute; reflexivity) H) as P1.
  change (heads_after [ny_nj_ga] _) with [ny_nj_ga] in P1.
  pose proof (rule_loop_led capital_N quiet_for_states _ Hm Hk
                ReplacedStates bare_state_replacements [ny_nj_ga] _
                ltac:(vm_compute; reflexivity) P1) as P2.
  change (heads_after _ bare_state_replacements) with (@nil text) in P2.
  pose proof (led_no_mark capital_N _ _ [capital_Y; comma] P2
                ltac:(intros t0; reflexivity)) as D.
  destruct (contains ny_nj_ga _) eqn:E; [exfalso | reflexivity].
  assert (contains (capital_N :: [capital_Y; comma]) ny_nj_ga = true) as M
      by (vm_compute; reflexivity).
  pose proof (contains_trans _ _ _ M E) as C.
  exact (diff_true_false (eq_trans (eq_sym C) D)).
Qed.

(** ** A character the pattern does not hold splits the text *)

Lemma startswith_before (old s1 s2 : text) (sep : char) :
  ~ In sep old ->
  startswith old (s1 ++ sep :: s2) = startswith old s1.
Proof.
  revert s1. induction old as [|c old IH]; intros s1 Hn; [reflexivity|].
  destruct s1 as [|d s1]; cbn [app startswith].
  - destruct (N.eqb c sep) eqn:E; [|reflexivity].
    apply N.eqb_eq in E. subst c. exfalso. apply Hn. now left.
  - rewrite IH; [reflexivity|]. intros H. apply Hn. now right.
Qed.

Lemma startswith_fits (old s : text) :
  startswith old s = true -> List.length old <= List.length s.
Proof.
  intros H. apply startswith_spec in H as [r ->]. rewrite length_app. lia.
Qed.

Lemma replace_from_split (old new s2 : text) (sep : char) :
  old <> [] -> ~ In sep old ->
  forall s1 skip,
    skip <= List.length s1 ->
    replace_from old new skip (s1 ++ sep :: s2)
    = replace_from old new skip s1 ++ sep :: replace_from old new 0 s2.
Proof.
  intros Hne Hn. induction s1 as [|c s1 IH]; intros skip Hs.
  - destruct skip; [|cbn in Hs; lia]. cbn [app replace_from].
    rewrite (startswith_before old [] s2 sep Hn
             : startswith old (sep :: s2) = startswith old []).
    destruct old as [|o old]; [congruence | reflexivity].
  - destruct skip as [|k]; cbn [app replace_from].
    + rewrite (startswith_before old (c :: s1) s2 sep Hn
               : startswith old (c :: s1 ++ sep :: s2)
                 = startswith old (c :: s1)).
      destruct (startswith old (c :: s1)) eqn:E.
      * rewrite IH; [now rewrite <- app_assoc|].
        apply startswith_fits in E. cbn in E. lia.
      * rewrite IH by lia. reflexivity.
    + apply IH. cbn in Hs. lia.
Qed.

Lemma rule_step_content (cat : category) (st : progress) (old new : text) :
  old <> [] ->
  fst (rule_step cat st (old, new)) = replace_from old new 0 (fst st).
Proof.
  intros Hne. destruct st as [s ch]. unfold rule_step. cbn [fst].
  destruct (contains old s) eqn:E; cbn [fst].
  - now apply replace_nonempty.
  - symmetry. now apply replace_from_absent.
Qed.

Lemma rule_loop_split (cat : category) (rules : list (text * text))
  (sep : char) :
  (forall rule, In rule rules -> fst rule <> [] /\ ~ In sep (fst rule)) ->
  forall s1 s2 ch,
    fst (rule_loop cat rules (s1 ++ sep :: s2, ch))
    = fst (rule_loop cat rules (s1, []))
      ++ sep :: fst (rule_loop cat rules (s2, [])).
Proof.
  unfold rule_loop.
  induction rules as [|[old new] rules IH]; intros Hr s1 s2 ch;
    [reflexivity|].
  destruct (Hr (old, new) ltac:(now left)) as [Hne Hn]. cbn [fst] in Hne, Hn.
  assert (forall rule, In rule rules ->
                       fst rule <> [] /\ ~ In sep (fst rule)) as Hr'
      by (intros rule Hin; apply Hr; now right).
  cbn [fold_left].
  pose proof (rule_loop_content cat rules) as C. unfold rule_loop in C.
  rewrite C. symmetry. rewrite C. rewrite (C (rule_step cat (s2, []) _)).
  symmetry. rewrite !rule_step_content by exact Hne. cbn [fst].
  rewrite replace_from_split by (exact Hne || exact Hn || apply Nat.le_0_l).
  apply IH. exact Hr'.
Qed.

(** ** One cuisine term in a text without another *)

Section OneSite.

Variables p t : text.
Hypothesis Hp : contains middle p = false.
Hypothesis Ht : contains middle t = false.

Lemma site_sole : sole middle p t.
Proof.
  apply sole_site; [discriminate | exact Hp | |].
  - change (middle ++ t) with (77%N :: (tl middle ++ t)).
    apply crossing_first_char. vm_compute. reflexivity.
  - change (tl (middle ++ t)) with (tl middle ++ t).
    apply contains_app_false; [vm_compute; reflexivity | | exact Ht].
    vm_compute. reflexivity.
Qed.

(** A pattern that goes on after [Middle] in another way than the text
    does is not there. *)
Lemma other_rule_absent (u v : text) :
  (forall t', t <> v ++ t') ->
  contains (u ++ middle ++ v) (p ++ middle ++ t) = false.
Proof.
  intros Hv.
  destruct (contains (u ++ middle ++ v) (p ++ middle ++ t)) eqn:E;
    [exfalso | reflexivity].
  destruct (contains_sole middle u v p t site_sole E) as [p' [t' [_ Et]]].
  exact (Hv t' Et).
Qed.

End OneSite.

Lemma own_rule_fires (v new p q : text) :
  contains middle p = false -> contains middle (v ++ q) = false ->
  replace (middle ++ v) new (p ++ (middle ++ v) ++ q) = p ++ new ++ q.
Proof.
  intros Hp Hq. rewrite replace_nonempty by discriminate.
  apply (replace_from_sole middle [] v new p q); [discriminate|].
  rewrite app_nil_r. now apply site_sole.
Qed.

(** No cuisine rule finds its pattern in a text without [Middle]. *)
Lemma cuisine_rules_idle (cat : category) (rules : list (text * text))
  (st : progress) :
  (forall rule, In rule rules -> contains middle (fst rule) = true) ->
  contains middle (fst st) = false ->
  rule_loop cat rules st = st.
Proof.
  intros Hr Hs. apply rule_loop_idle. apply not_true_iff_false. intros E.
  apply existsb_exists in E as [old [Hin E]].
  apply in_map_iff in Hin as [rule [<- Hin]].
  specialize (Hr rule Hin).
  rewrite (contains_trans _ _ _ Hr E) in Hs. discriminate.
Qed.

Lemma cuisine_rules_hold_middle (rule : text * text) :
  In rule middle_eastern_replacements -> contains middle (fst rule) = true.
Proof.
  intros Hin.
  assert (forallb (fun rule : text * text => contains middle (fst rule))
            middle_eastern_replacements = true) as F
      by (vm_compute; reflexivity).
  rewrite forallb_forall in F. now apply F.
Qed.

(** What a cuisine rule puts in brings no [Middle]. *)
Lemma halal_free (new p q : text) :
  In new (map snd middle_eastern_replacements) ->
  contains middle p = false -> contains middle q = false ->
  contains middle (p ++ new ++ q) = false.
Proof.
  intros Hin Hp Hq.
  cbn [middle_eastern_replacements map snd In] in Hin.
  repeat (destruct Hin as [<- | Hin]); try contradiction;
    (apply contains_app_false;
     [ exact Hp
     | match goal with
       | |- crossing _ _ ((?c :: ?r) ++ q) = false =>
           change ((c :: r) ++ q) with (c :: (r ++ q));
           apply crossing_first_char; vm_compute; reflexivity
       end
     | apply contains_app_false;
       [vm_compute; reflexivity | vm_compute; reflexivity | exact Hq] ]).
Qed.

(** ** The cuisine rules on one term *)

Lemma cuisine_bare_term (p c : text) (st : progress) :
  contains middle p = false -> contains middle c = false ->
  startswith amp_mediterranean c = false ->
  fst st = bare_left p c ->
  fst (replace_middle_eastern st) = bare_done p c.
Proof.
  intros Hp Hc Hpair E.
  unfold replace_middle_eastern, rule_loop.
  change middle_eastern_replacements
    with ((middle_eastern_restaurant, halal_restaurant)
            :: tl middle_eastern_replacements).
  cbn [fold_left].
  apply (cuisine_rules_settle p c Hp Hc Hpair).
  apply (rewrite_rule_settled p c Hp Hc ReplacedMiddleEastern []
           (str " Restaurant")).
  left. exact E.
Qed.

(** A rule whose pattern no earlier rule's pattern goes along with: the
    earlier rules find nothing, the rule replaces its term, and the later
    rules find no [Middle] any more. *)
Lemma cuisine_own_rule (before later : list (text * text))
  (v new p q : text) (ch : list category) :
  (forall rule, In rule before ->
                contains (fst rule) (p ++ (middle ++ v) ++ q) = false) ->
  forallb (fun rule : text * text => contains middle (fst rule)) later
  = true ->
  In new (map snd middle_eastern_replacements) ->
  contains middle p = false -> contains middle (v ++ q) = false ->
  contains middle q = false ->
  fst (rule_loop ReplacedMiddleEastern
         (before ++ (middle ++ v, new) :: later)
         (p ++ (middle ++ v) ++ q, ch))
  = p ++ new ++ q.
Proof.
  intros Hb Hl Hnew Hp Hvq Hq. unfold rule_loop.
  rewrite fold_left_app.
  change (fold_left (rule_step ReplacedMiddleEastern) before
            (p ++ (middle ++ v) ++ q, ch))
    with (rule_loop ReplacedMiddleEastern before
            (p ++ (middle ++ v) ++ q, ch)).
  rewrite rule_loop_idle.
  2:{ cbn [fst]. apply not_true_iff_false. intros E.
      apply existsb_exists in E as [old [Hin E]].
      apply in_map_iff in Hin as [rule [<- Hin]].
      rewrite (Hb rule Hin) in E. discriminate. }
  cbn [fold_left].
  rewrite rule_step_fire by apply contains_here.
  rewrite own_rule_fires by assumption.
  change (fold_left (rule_step ReplacedMiddleEastern) later
            (p ++ new ++ q, ch ++ [ReplacedMiddleEastern]))
    with (rule_loop ReplacedMiddleEastern later
            (p ++ new ++ q, ch ++ [ReplacedMiddleEastern])).
  rewrite cuisine_rules_idle;
    [reflexivity | now apply forallb_forall |].
  cbn [fst]. now apply halal_free.
Qed.

Ltac other_way :=
  let t' := fresh "t'" in let E := fresh "E" in
  intros t' E; cbn in E; discriminate E.

Lemma cuisine_one_term (old new p q : text) (ch : list category) :
  In (old, new) middle_eastern_replacements ->
  contains middle p = false -> contains middle q = false ->
  paired old q = false ->
  fst (replace_middle_eastern (p ++ old ++ q, ch)) = p ++ new ++ q.
Proof.
  intros Hin Hp Hq Hpair.
  assert (forall w : text,
             contains middle w = false ->
             crossing middle w q = false ->
             contains middle (w ++ q) = false) as Hw
      by (intros w H1 H2; now apply contains_app_false).
  cbn [middle_eastern_replacements In] in Hin.
  destruct Hin as [E | [E | [E | [E | [E | [E | [E | [E | []]]]]]]]];
    injection E as <- <-.
  - refine (cuisine_bare_term p (str " Restaurant" ++ q) (_, ch) Hp _ _
              eq_refl);
      [apply Hw|]; vm_compute; reflexivity.
  - refine (cuisine_bare_term p (str " Cuisine" ++ q) (_, ch) Hp _ _
              eq_refl);
      [apply Hw|]; vm_compute; reflexivity.
  - refine (cuisine_bare_term p (str " Food" ++ q) (_, ch) Hp _ _ eq_refl);
      [apply Hw|]; vm_compute; reflexivity.
  - apply (cuisine_own_rule (firstn 3 middle_eastern_replacements)
             (skipn 4 middle_eastern_replacements)
             (str ",Eastern,Restaurant") (str "Halal,Restaurant") p q ch);
      try assumption.
    + intros rule Hr. cbn [middle_eastern_replacements firstn In] in Hr.
      destruct Hr as [<- | [<- | [<- | []]]]; cbn [fst].
      * apply (other_rule_absent p (str ",Eastern,Restaurant" ++ q) Hp
                 ltac:(apply Hw; vm_compute; reflexivity)
                 [] (str " Eastern Restaurant")). other_way.
      * apply (other_rule_absent p (str ",Eastern,Restaurant" ++ q) Hp
                 ltac:(apply Hw; vm_compute; reflexivity)
                 [] (str " Eastern Cuisine")). other_way.
      * apply (other_rule_absent p (str ",Eastern,Restaurant" ++ q) Hp
                 ltac:(apply Hw; vm_compute; reflexivity)
                 [] (str " Eastern Food")). other_way.
    + vm_compute. reflexivity.
    + cbn. tauto.
  - apply (cuisine_own_rule (firstn 4 middle_eastern_replacements)
             (skipn 5 middle_eastern_replacements)
             (str ",Eastern,Food") (str "Halal,Food") p q ch);
      try assumption.
    + intros rule Hr. cbn [middle_eastern_replacements firstn In] in Hr.
      destruct Hr as [<- | [<- | [<- | [<- | []]]]]; cbn [fst].
      * apply (other_rule_absent p (str ",Eastern,Food" ++ q) Hp
                 ltac:(apply Hw; vm_compute; reflexivity)
                 [] (str " Eastern Restaurant")). other_way.
      * apply (other_rule_absent p (str ",Eastern,Food" ++ q) Hp
                 ltac:(apply Hw; vm_compute; reflexivity)
                 [] (str " Eastern Cuisine")). other_way.
      * apply (other_rule_absent p (str ",Eastern,Food" ++ q) Hp
                 ltac:(apply Hw; vm_compute; reflexivity)
                 [] (str " Eastern Food")). other_way.
      * apply (other_rule_absent p (str ",Eastern,Food" ++ q) Hp
                 ltac:(apply Hw; vm_compute; reflexivity)
                 [] (str ",Eastern,Restaurant")). other_way.
    + vm_compute. reflexivity.
    + cbn. tauto.
  - apply (cuisine_own_rule (firstn 5 middle_eastern_replacements)
             (skipn 6 middle_eastern_replacements)
             (str " Eastern & Mediterranean") halal p q ch);
      try assumption.
    + intros rule Hr. cbn [middle_eastern_replacements firstn In] in Hr.
      destruct Hr as [<- | [<- | [<- | [<- | [<- | []]]]]]; cbn [fst].
      * apply (other_rule_absent p (str " Eastern & Mediterranean" ++ q) Hp
                 ltac:(apply Hw; vm_compute; reflexivity)
                 [] (str " Eastern Restaurant")). other_way.
      * apply (other_rule_absent p (str " Eastern & Mediterranean" ++ q) Hp
                 ltac:(apply Hw; vm_compute; reflexivity)
                 [] (str " Eastern Cuisine")). other_way.
      * apply (other_rule_absent p (str " Eastern & Mediterranean" ++ q) Hp
                 ltac:(apply Hw; vm_compute; reflexivity)
                 [] (str " Eastern Food")). other_way.
      * apply (other_rule_absent p (str " Eastern & Mediterranean" ++ q) Hp
                 ltac:(apply Hw; vm_compute; reflexivity)
                 [] (str ",Eastern,Restaurant")). other_way.
      * apply (other_rule_absent p (str " Eastern & Mediterranean" ++ q) Hp
                 ltac:(apply Hw; vm_compute; reflexivity)
                 [] (str ",Eastern,Food")). other_way.
    + vm_compute. reflexivity.
    + cbn. tauto.
  - unfold paired in Hpair.
    change (endswith middle_eastern (str "authentic Middle Eastern"))
      with true in Hpair. cbn [andb] in Hpair.
    assert (contains middle (p ++ str "authentic ") = false) as Hp'.
    { apply contains_app_false; [exact Hp | | vm_compute; reflexivity].
      apply (crossing_first_char middle p (str "uthentic ") 97%N).
      vm_compute. reflexivity. }
    pose proof (cuisine_bare_term (p ++ str "authentic ") q
                  (p ++ str "authentic Middle Eastern" ++ q, ch)
                  Hp' Hq Hpair) as R.
    unfold bare_left, bare_done in R. rewrite <- !app_assoc in R.
    exact (R eq_refl).
  - unfold paired in Hpair.
    change (endswith middle_eastern (str "Middle Eastern"))
      with true in Hpair. cbn [andb] in Hpair.
    exact (cuisine_bare_term p q (_, ch) Hp Hq Hpair eq_refl).
Qed.

Lemma catch_all_first_preempts (p q : text) (ch : list category) :
  contains middle p = false -> contains middle q = false ->
  fst (rule_loop ReplacedMiddleEastern catch_all_first
         (p ++ str "Middle Eastern & Mediterranean" ++ q, ch))
  = p ++ halal ++ amp_mediterranean ++ q.
Proof.
  intros Hp Hq.
  exact (cuisine_own_rule [] (firstn 7 middle_eastern_replacements)
           (str " Eastern") halal p (amp_mediterranean ++ q) ch
           ltac:(intros rule [])
           ltac:(vm_compute; reflexivity)
           ltac:(cbn; tauto) Hp Hq Hq).
Qed.

(** * The claims *)

(** C1 (code defect).  Every exception of [fix_file]'s read, transform and
    write is caught and, if the name of the file can be printed, printed,
    but the debug block reads [index.html]
    with the strict decoder before [fix_file] and outside its [try]: on a
    site whose [index.html] begins with a byte that is not UTF-8 the run
    ends with [UnicodeDecodeError], no file is processed, and the page
    after it, which has the shipping phrase, stays as it was. *)
Theorem index_decode_error_aborts_batch :
  main broken_index_site
  = (Raise UnicodeDecodeError,
     mkworld (script_dir broken_index_site) (files broken_index_site) 1
       [WorkingIn (str "/srv/site"); Found 2]).
Proof. vm_compute. reflexivity. Qed.

(** C2 (code defect).  The link pattern runs before the list-item pattern
    and deletes the anchor, so the list-item pattern finds nothing: of a
    list item that wraps a shipping link, the empty wrapper is left. *)
Theorem li_wrapper_left_behind :
  fix_content li_wrapped_link = (str "<li></li>", []).
Proof. vm_compute. reflexivity. Qed.

(** C3 (code defect).  The file is read with universal newlines and
    written with [newline=''], so a changed page that had CR LF line ends
    is written back with LF line ends. *)
Theorem crlf_written_back_as_lf :
  fst (main crlf_site) = Ok 1 /\
  lookup (str "menu.html") (files (snd (main crlf_site)))
  = Some (mkfile (str "Open Daily " ++ [LF] ++ str "Menu" ++ [LF]) 1
            true true) /\
  In CR crlf_page.
Proof. vm_compute. repeat split. auto 40. Qed.

(** C4 (as amended).  For a changed file, [fix_file] reports the list
    without repetition of exactly those of the three literal rule
    categories of which a rule fired; the link, heading, hot-sauce and
    dropdown rules have no category. *)
Theorem reported_categories (p : path) (w w1 : world) (content : text)
  (reported : list category) :
  read_text p w = (Ok content, w) ->
  fix_file p w = (Ok (true, reported), w1) ->
  NoDup reported /\
  forall cat, In cat reported <-> fired cat content = true.
Proof.
  intros Hr Hf.
  pose proof (fix_file_catches p w) as C. unfold fix_file_body in C.
  unfold bind at 1 in C. rewrite Hr in C.
  destruct (fix_content content) as [c changes] eqn:E.
  assert (reported = list_set changes) as ->.
  { destruct (negb (text_eqb c content)).
    - unfold bind in C. destruct (write_text p c w) as [[u|e] w2].
      + unfold ret in C. rewrite C in Hf. now injection Hf as <- _.
      + rewrite C in Hf. destruct (encodable _) in Hf; discriminate.
    - unfold ret in C. rewrite C in Hf. discriminate. }
  split; [apply NoDup_nodup|].
  intros cat. unfold list_set. rewrite nodup_In.
  change changes with (snd (c, changes)). rewrite <- E.
  apply fix_content_changes.
Qed.

Lemma reported_categories_witness :
  NoDup [RemovedNationwide] /\
  forall cat,
    In cat [RemovedNationwide]
    <-> fired cat (str "Open Daily - Nationwide Shipping" ++ [LF]
                     ++ str "Menu" ++ [LF]) = true.
Proof.
  apply (reported_categories (str "menu.html") crlf_site
           (snd (fix_file (str "menu.html") crlf_site))).
  - vm_compute. reflexivity.
  - vm_compute. reflexivity.
Defined.

(** C4, counterexample: a page changed by the heading pattern alone is
    reported as changed with an empty list of categories. *)
Lemma heading_change_reports_no_category :
  fst (fix_file (str "h.html") heading_site) = Ok (true, []).
Proof. vm_compute. reflexivity. Qed.




(** C6 (as amended).  Where the shipping phrase stands in a text, in any
    of its four forms, and the text without it holds no shipping phrase,
    the transform removes the phrase with its dash and the space after
    the dash, and nothing else: the result is that of the text without
    the phrase, so a space before the dash stays.  (The form without a
    dash is the phrase with no dash and space before it.) *)
Theorem dash_variant_removed (v : dash_variant) (pre post : text) :
  contains nationwide_shipping (pre ++ post) = false ->
  (v = NoDash -> dash_before pre = false) ->
  remove_nationwide (pre ++ shipping_phrase v ++ post, [])
  = (pre ++ post, [RemovedNationwide]) /\
  fst (fix_content (pre ++ shipping_phrase v ++ post))
  = fst (fix_content (pre ++ post)).
Proof.
  intros Hfree Hv.
  pose proof (nationwide_variant_removed pre post Hfree v Hv) as R.
  pose proof (nationwide_nothing_to_remove pre post Hfree []) as N.
  split; [exact R|].
  unfold fix_content. cbv zeta. cbn [fst]. f_equal.
  unfold replace_middle_eastern, replace_states.
  rewrite rule_loop_content.
  rewrite (rule_loop_content ReplacedStates).
  symmetry. rewrite rule_loop_content.
  rewrite (rule_loop_content ReplacedStates).
  exact (f_equal
           (fun s : text =>
              fst (rule_loop ReplacedMiddleEastern middle_eastern_replacements
                     (fst (rule_loop ReplacedStates state_replacements
                             (s, [])), [])))
           (eq_trans (f_equal fst N) (eq_sym (f_equal fst R)))).
Qed.

Lemma dash_variant_removed_witness :
  remove_nationwide (str "Open Daily " ++ shipping_phrase EmDash ++ [], [])
  = (str "Open Daily " ++ [], [RemovedNationwide]) /\
  fst (fix_content (str "Open Daily " ++ shipping_phrase EmDash ++ []))
  = fst (fix_content (str "Open Daily " ++ [])).
Proof.
  apply (dash_variant_removed EmDash (str "Open Daily ") []).
  - vm_compute. reflexivity.
  - discriminate.
Defined.

(** C6, counterexample: the space before the dash is kept. *)
Lemma open_daily_keeps_trailing_space :
  fst (fix_content open_daily) = str "Open Daily " /\
  fst (fix_content open_daily) <> str "Open Daily".
Proof. vm_compute. split; [reflexivity | discriminate]. Qed.

(** C7.  A file whose content the rules leave unchanged, which are the
    files without a target pattern, is not written: [fix_file] returns
    the world as it was, bytes, time stamps, clock and console, and the
    loop goes on to the next file with the same count. *)
Theorem unchanged_file_untouched (p : path) (w : world) (content : text) :
  read_text p w = (Ok content, w) ->
  fst (fix_content content) = content \/ has_target content = false ->
  (fst (fix_content content) = content <-> has_target content = false) /\
  fix_file p w = (Ok (false, []), w) /\
  forall rest n,
    process_files (p :: rest) n w
    = (debug_block p ;;; process_files rest n) w.
Proof.
  intros Hr Hc. split; [apply unchanged_iff_no_target|].
  assert (fst (fix_content content) = content) as Hsame.
  { destruct Hc as [Hc | Hc]; [exact Hc|].
    now apply unchanged_iff_no_target. }
  split; [now apply fix_file_unchanged with content|].
  intros rest n. cbn [process_files]. apply bind_ext. intros u w1 D.
  apply debug_block_frame in D. unfold bind.
  rewrite (fix_file_unchanged p w1 content); [reflexivity | | exact Hsame].
  now apply read_text_frame with w.
Qed.

Lemma unchanged_file_untouched_witness :
  (fst (fix_content (str "<p>Open Daily</p>")) = str "<p>Open Daily</p>"
   <-> has_target (str "<p>Open Daily</p>") = false) /\
  fix_file (str "about.html") quiet_site = (Ok (false, []), quiet_site) /\
  forall rest n,
    process_files (str "about.html" :: rest) n quiet_site
    = (debug_block (str "about.html") ;;; process_files rest n) quiet_site.
Proof.
  apply (unchanged_file_untouched (str "about.html") quiet_site
           (str "<p>Open Daily</p>")).
  - vm_compute. reflexivity.
  - right. vm_compute. reflexivity.
Defined.

(** C8 (as amended).  Where a listed region variant stands in the text,
    [NY, NJ, GA] occurs nowhere else, no longer variant goes on after it
    and no [NY, ] stands before it, the state rules replace it once with
    the canonical code and append one entry to [changes]. *)
Theorem region_list_replaced_once (old new pre post : text) :
  In (old, new) state_replacements ->
  count ny_nj_ga (pre ++ old ++ post) = 1 ->
  (endswith ny_nj_ga old = true -> longer_variant_follows post = false) ->
  contains (str "NY, NY, NJ, GA") (pre ++ old ++ post) = false ->
  replace_states (pre ++ old ++ post, [])
  = (pre ++ new ++ post, [ReplacedStates]).
Proof.
  intros Hin Hcount Hlong Hsplice.
  assert (forall tail : text, tail <> [] -> tail = [] ->
                              longer_variant_follows post = false) as Hne
      by (intros tail Ht E; contradiction).
  cbn [state_replacements In] in Hin.
  destruct Hin as [E | [E | [E | [E | [E | [E | [E | [E | []]]]]]]]];
    injection E as <- <-.
  - apply (region_variant_replaced [] (str ", & CT")); try assumption;
      [cbn; tauto | now apply Hne].
  - apply (region_variant_replaced [] (str " & CT")); try assumption;
      [cbn; tauto | now apply Hne].
  - apply (region_variant_replaced [] (str ", CT")); try assumption;
      [cbn; tauto | now apply Hne].
  - apply (region_variant_replaced [] []); try assumption;
      [cbn; tauto | intros _; now apply Hlong].
  - apply (region_variant_replaced (str "in ") (str ", & CT"));
      try assumption; [cbn; tauto | now apply Hne].
  - apply (region_variant_replaced (str "in ") (str " & CT"));
      try assumption; [cbn; tauto | now apply Hne].
  - apply (region_variant_replaced (str "in ") (str ", CT"));
      try assumption; [cbn; tauto | now apply Hne].
  - apply (region_variant_replaced (str "in ") []); try assumption;
      [cbn; tauto | intros _; now apply Hlong].
Qed.

Lemma region_list_replaced_once_witness :
  replace_states (str "Serving " ++ str "NY, NJ, GA, & CT" ++ str " residents", [])
  = (str "Serving " ++ str "NJ" ++ str " residents", [ReplacedStates]).
Proof.
  apply (region_list_replaced_once (str "NY, NJ, GA, & CT") (str "NJ")
           (str "Serving ") (str " residents")).
  - left. reflexivity.
  - vm_compute. reflexivity.
  - vm_compute. discriminate.
  - vm_compute. reflexivity.
Defined.

(** C8, counterexample: the text has one occurrence of one listed
    variant, yet two rules fire, the second on what the first left, and
    the text around the variant does not survive. *)
Lemma spliced_region_list_replaced_twice :
  In (ny_nj_ga, nj) state_replacements /\
  spliced_region_list = str "in NY, " ++ ny_nj_ga ++ str ", GA" /\
  count ny_nj_ga spliced_region_list = 1 /\
  existsb (fun rule => negb (text_eqb (fst rule) ny_nj_ga)
                       && contains (fst rule) spliced_region_list)
    state_replacements = false /\
  replace_states (spliced_region_list, [])
  = (str "in NJ", [ReplacedStates; ReplacedStates]) /\
  replace_states (spliced_region_list, [])
  <> (str "in NY, " ++ nj ++ str ", GA", [ReplacedStates]).
Proof.
  vm_compute. repeat split; try reflexivity; try discriminate. tauto.
Qed.



(** C10 (as amended).  On a text in which every capital N begins
    [NY, NJ, GA], or is followed by a character other than Y, N and the
    three dashes, or by Y and then a character other than the comma, N
    and the three dashes, the four state rules without [in] leave no
    [NY, NJ, GA]: none of the four rules with [in] finds its pattern, and
    the transform is the transform without them. *)
Theorem prefixed_state_rules_idle (original : text) :
  led capital_N [ny_nj_ga] after_N_states original = true ->
  contains ny_nj_ga
    (fst (replace_states_bare (remove_nationwide (original, [])))) = false /\
  fix_content original = fix_content_bare original.
Proof.
  intros H. pose proof (bare_rules_leave_no_list original H) as B.
  split; [exact B|].
  unfold fix_content, fix_content_bare. cbv zeta.
  change (replace_states (remove_nationwide (original, [])))
    with (rule_loop ReplacedStates (skipn 4 state_replacements)
            (replace_states_bare (remove_nationwide (original, [])))).
  now rewrite prefixed_rules_idle.
Qed.

Lemma prefixed_state_rules_idle_witness :
  contains ny_nj_ga
    (fst (replace_states_bare (remove_nationwide (region_page, [])))) = false /\
  fix_content region_page = fix_content_bare region_page.
Proof.
  apply (prefixed_state_rules_idle region_page). vm_compute. reflexivity.
Defined.

(** C10, counterexample: an [in] rule fires on the region list that an
    earlier replacement put together. *)
Lemma prefixed_state_rule_fires :
  fix_content spliced_region_list <> fix_content_bare spliced_region_list.
Proof. vm_compute. discriminate. Qed.
